(** * fluentd-reloader: a shallow embedding of the reconciliation run

    The program is a single Go [main] package.  One run lists the fluentd
    pods of a namespace, probes the certificate served on port 443, looks
    up the cert-manager Certificate resource, compares the two expiry
    timestamps and, when they differ, asks every fluentd replica to reload
    its configuration.

    Everything outside the process (the cluster API, the TLS peer, the HTTP
    reload endpoints, the process environment) is an oracle collected in
    the record [Env].  Every function of the program becomes a function
    from [Env] to a pair of the events it performs, in order, and the way
    it ends (a returned value or a Go panic). *)

From Stdlib Require Import ZArith Ascii String List Permutation Sorted.
From stdpp Require Import base option list strings gmap.

Local Open Scope string_scope.
Local Open Scope Z_scope.
Local Open Scope list_scope.

(** ** Go values *)

Module Go.

(** [error] values.  [fmt.Errorf] keeps its format string and its
    argument; an error that comes out of a library call is opaque. *)
Inductive error : Type :=
| LibError (msg : string)
| Errorf (format : string)
| Errorf_w (format : string) (wrapped : error)
| Errorf_s (format : string) (arg : string).

(** A Go function returning [(T, error)]: the value when the error is
    nil, the error otherwise (the program never reads the value that
    comes with a non-nil error). *)
Inductive result (T : Type) : Type :=
| Ok (v : T)
| Err (e : error).
Arguments Ok {T} v.
Arguments Err {T} e.

(** What [panic] was called with; indexing outside a slice is the
    runtime's own panic. *)
Inductive panic_value : Type :=
| PanicError (e : error)
| PanicString (s : string)
| PanicIndexOutOfRange (index len : nat).

(** [time.Time] without a monotonic clock reading (the only times of this
    program are decoded from a certificate or from JSON, never taken from
    [time.Now]): seconds and nanoseconds of the instant, and a location
    that only affects printing. *)
Record Time : Type := mkTime { sec : Z; nsec : Z; loc : string }.

(** [func (t Time) Equal(u Time) bool]: the same instant, whatever the
    locations. *)
Definition Time_Equal (t u : Time) : bool :=
  (sec t =? sec u) && (nsec t =? nsec u).

(** [time.Second], a [time.Duration] in nanoseconds. *)
Definition Second : Z := 1000000000.

(** [utf8.RuneSelf]. *)
Definition RuneSelf : Z := 128.

Definition byte_val (c : ascii) : Z := Z.of_N (N_of_ascii c).

(** The ASCII test of [strings.EqualFold], after [sr] and [tr] have been
    ordered: [ 'A' <= sr && sr <= 'Z' && tr == sr+'a'-'A' ], on bytes. *)
Definition ascii_fold_eq (sr tr : Z) : bool :=
  (65 <=? sr) && (sr <=? 90) && (tr =? (sr + 97 - 65) mod 256).

(** [strings.EqualFold].  The loop over the common prefix compares bytes
    up to ASCII case; at the first position holding a byte outside ASCII
    the library jumps to its rune loop on the two remaining suffixes,
    which is the parameter [fold_runes] (it needs the Unicode
    case-folding tables).  When one string is exhausted the result is
    [len(s) == len(t)], that is, both are. *)
Fixpoint EqualFold (fold_runes : string -> string -> bool) (s t : string) : bool :=
  match s, t with
  | String cs s', String ct t' =>
      let sr := byte_val cs in
      let tr := byte_val ct in
      if RuneSelf <=? Z.lor sr tr then fold_runes s t
      else if tr =? sr then EqualFold fold_runes s' t'
      else
        let '(sr, tr) := if tr <? sr then (tr, sr) else (sr, tr) in
        if ascii_fold_eq sr tr then EqualFold fold_runes s' t' else false
  | EmptyString, EmptyString => true
  | _, _ => false
  end.

(** A byte below [utf8.RuneSelf]. *)
Definition is_ascii (c : ascii) : bool := byte_val c <? RuneSelf.

(** [c += 'a' - 'A'] for an upper-case ASCII letter, any other byte
    stays. *)
Definition to_lower (c : ascii) : ascii :=
  if (65 <=? byte_val c) && (byte_val c <=? 90)
  then ascii_of_N (N_of_ascii c + 32)
  else c.

Fixpoint lower (s : string) : string :=
  match s with
  | EmptyString => EmptyString
  | String c s' => String (to_lower c) (lower s')
  end.

(** [strings.ToLower]: byte by byte on an ASCII string; any other string
    goes through [unicode.ToLower], the parameter [lower_runes]. *)
Definition ToLower (lower_runes : string -> string) (s : string) : string :=
  if forallb is_ascii (list_ascii_of_string s) then lower s else lower_runes s.

(** [strings.Contains(s, substr)] *)
Definition Contains (s substr : string) : bool :=
  match String.index 0 substr s with
  | Some _ => true
  | None => false
  end.

End Go.
Export Go.

(** ** Kubernetes and cert-manager objects, as far as the program reads them *)

Module metav1.

(** [metav1.Time] wraps a [time.Time]; the program holds it behind a
    pointer, [None] being the nil pointer. *)
Record Time : Type := mk { Time_ : Go.Time }.

(** [func NewTime(time time.Time) Time { return Time{time} }] *)
Definition NewTime (t : Go.Time) : Time := mk t.

(** [func (t *Time) Equal(u *Time) bool]: two nil pointers are equal, a
    nil and a non-nil pointer are not, otherwise the wrapped times are
    compared with [time.Time.Equal]. *)
Definition Equal (t u : option Time) : bool :=
  match t, u with
  | None, None => true
  | Some t, Some u => Go.Time_Equal (Time_ t) (Time_ u)
  | _, _ => false
  end.

End metav1.

(** [corev1.Pod]: [.metadata.name], [.metadata.labels], [.status.podIP]. *)
Record Pod : Type := mkPod {
  Pod_Name : string;
  Labels : gmap string string;
  PodIP : string
}.

(** [cmapi.CertificateStatus] and [cmapi.Certificate]. *)
Record CertificateStatus : Type := mkStatus {
  NotAfter : option metav1.Time;
  RenewalTime : option metav1.Time
}.

Record Certificate : Type := mkCertificate {
  Name : string;
  Status : CertificateStatus
}.

(** [x509.Certificate]: the two fields [checkCert] reads. *)
Record x509_Certificate : Type := mkX509 {
  Issuer : string;
  x509_NotAfter : Go.Time
}.

(** [tls.Conn] after [tls.Dial]: the peer's chain and the answer of
    [VerifyHostname].  The two fields are independent here; [crypto/tls]
    itself never hands out an established connection without a peer
    certificate, and the statements about the probe do not rest on such
    a connection. *)
Record tls_Conn : Type := mkConn {
  PeerCertificates : list x509_Certificate;
  VerifyHostname : string -> option error
}.

(** [http.Request] as built by [http.NewRequest(method, url, nil)]. *)
Record Request : Type := mkRequest {
  Method : string;
  URL : string
}.

(** [http.Response]: the status code, the status line and what
    [io.ReadAll(resp.Body)] gives. *)
Record Response : Type := mkResponse {
  StatusCode : Z;
  Status_line : string;
  Body : result string
}.

(** ** Events of a run *)

(** One constructor per [log.Println] / [log.Printf] call site, holding
    the values that are printed. *)
Inductive LogLine : Type :=
| LogPodSkipped (podName : string)
| LogNotFluentdCert (certName : string)
| LogIssuerExpiry (issuer : string) (expiry : Go.Time)
| LogReloading (ip : string)
| LogResponse (body : string)
| LogWillExpire (expiry : Go.Time)
| LogWillRenew (renewalTime : option metav1.Time)
| LogValid
| LogNotValid
| LogShouldExpire (notAfter : option metav1.Time) (expiry : Go.Time).

(** What the process does to the outside, in the order it does it. *)
Inductive Event : Type :=
| EvLog (l : LogLine)
| EvInClusterConfig
| EvNewForConfig
| EvLookupEnv (key : string)
| EvPodsList (namespace labelSelector : string)
| EvCertificatesGet (uri : string)
| EvTlsDial (network addr : string)
| EvVerifyHostname (host : string)
| EvHttpDo (timeout : Z) (req : Request)
| EvReadBody (k : nat)
| EvBodyClose (k : nat).

(** ** The outside world *)

Record Env : Type := mkEnv {
  (** [rest.InClusterConfig()] and [kubernetes.NewForConfig(cfg)]: the
      error, if any. *)
  rest_InClusterConfig : option error;
  kubernetes_NewForConfig : option error;
  (** [os.LookupEnv]. *)
  os_LookupEnv : string -> option string;
  (** [client.CoreV1().Pods(namespace).List(ctx, ListOptions{LabelSelector})]
      and the [Items] of its answer. *)
  Pods_List : string -> string -> result (list Pod);
  (** [client.RESTClient().Get().RequestURI(uri).Do(ctx).Into(&certificates)]
      and the [Items] it decodes. *)
  Certificates_Get : string -> result (list Certificate);
  (** [tls.Dial]: the TCP connection, then the handshake. *)
  net_Dial : string -> string -> option error;
  tls_Handshake : string -> result tls_Conn;
  (** [url.Parse], inside [http.NewRequest]: the error, if any. *)
  url_Parse : string -> option error;
  (** [client.Do(req)] for the [k]-th request the process sends. *)
  client_Do : nat -> Request -> result Response;
  (** The rune loop of [strings.EqualFold]. *)
  unicode_EqualFold : string -> string -> bool
}.

(** ** Computations: a trace and an outcome *)

Inductive outcome (A : Type) : Type :=
| Returns (a : A)
| Panics (p : panic_value).
Arguments Returns {A} a.
Arguments Panics {A} p.

Definition Proc (A : Type) : Type := (list Event * outcome A)%type.

Definition trace {A} (m : Proc A) : list Event := fst m.
Definition ending {A} (m : Proc A) : outcome A := snd m.

Definition proc_ret {A} (a : A) : Proc A := ([], Returns a).

Definition proc_bind {A B} (f : A -> Proc B) (m : Proc A) : Proc B :=
  match m with
  | (t, Returns a) => let '(t', o) := f a in (t ++ t', o)
  | (t, Panics p) => (t, Panics p)
  end.

#[global] Instance Proc_ret : MRet Proc := @proc_ret.
#[global] Instance Proc_bind : MBind Proc := @proc_bind.

(** [panic(v)] *)
Definition panic {A} (p : panic_value) : Proc A := ([], Panics p).

(** An external call: its event and the oracle's answer. *)
Definition call {A} (e : Event) (answer : A) : Proc A := ([e], Returns answer).

Definition log (l : LogLine) : Proc unit := call (EvLog l) tt.

(** [s[i]] on a slice. *)
Definition index {A} (s : list A) (i : nat) : Proc A :=
  match s !! i with
  | Some x => mret x
  | None => panic (PanicIndexOutOfRange i (length s))
  end.

(** [for _, x := range items { s = body(s, x) }] without [break] or
    [return] in the body. *)
Fixpoint for_range {A S} (items : list A) (body : S -> A -> Proc S) (s : S) : Proc S :=
  match items with
  | [] => mret s
  | x :: rest => s' ← body s x; for_range rest body s'
  end.

(** The HTTP requests of a trace, in order. *)
Definition http_requests (t : list Event) : list Request :=
  omap (λ e, match e with EvHttpDo _ req => Some req | _ => None end) t.

(** ** The program *)

Record app : Type := mkApp {
  namespace : string;
  certName : string
}.

Record config : Type := mkConfig {
  cfg_serviceURL : string;
  cfg_certName : string;
  cfg_namespace : string
}.

(** [http.Client{Timeout: ...}] *)
Record http_Client : Type := mkClient { Timeout : Z }.

Definition statefulset_label : string := "statefulset.kubernetes.io/pod-name".

(** [fmt.Sprintf("http://%s:24444/api/config.gracefulReload", ip)] *)
Definition reload_url (ip : string) : string :=
  "http://" +:+ ip +:+ ":24444/api/config.gracefulReload".

Section Program.

Context (env : Env).

Definition LookupEnv (key : string) : Proc (option string) :=
  call (EvLookupEnv key) (os_LookupEnv env key).

Definition getConfig : Proc config :=
  v ← LookupEnv "FLUENTD_SERVICE_URL";
  match v with
  | None => panic (PanicString "FLUENTD_SERVICE_URL is not set")
  | Some serviceURL =>
      v ← LookupEnv "FLUENTD_CERT_NAME";
      match v with
      | None => panic (PanicString "FLUENTD_CERT_NAME is not set")
      | Some certName =>
          v ← LookupEnv "FLUENTD_NAMESPACE";
          match v with
          | None => panic (PanicString "FLUENTD_NAMESPACE is not set")
          | Some namespace => mret (mkConfig serviceURL certName namespace)
          end
      end
  end.

(** The body of the loop of [getFluentdIPs]: [continue] for a pod
    without the label, [append] otherwise. *)
Definition collect_ip (fluentdIPs : list string) (pod : Pod) : Proc (list string) :=
  match Labels pod !! statefulset_label with
  | None => log (LogPodSkipped (Pod_Name pod));; mret fluentdIPs
  | Some _ => mret (fluentdIPs ++ [PodIP pod])
  end.

Definition getFluentdIPs (a : app) : Proc (result (list string)) :=
  let selector := "app=" +:+ namespace a in
  r ← call (EvPodsList (namespace a) selector) (Pods_List env (namespace a) selector);
  match r with
  | Err err => mret (Err (Errorf_w "failed to get fluentd pods: %w" err))
  | Ok items =>
      fluentdIPs ← for_range items collect_ip [];
      mret (Ok fluentdIPs)
  end.

(** The loop of [getCRD], which returns from inside its body, and the
    [return] that follows it. *)
Fixpoint getCRD_range (a : app) (items : list Certificate) : Proc (result Certificate) :=
  match items with
  | [] => mret (Err (Errorf "failed to find fluentd certificate"))
  | cert :: rest =>
      if EqualFold (unicode_EqualFold env) (Name cert) (certName a)
      then mret (Ok cert)
      else log (LogNotFluentdCert (Name cert));; getCRD_range a rest
  end.

Definition getCRD (a : app) : Proc (result Certificate) :=
  let uri := "/apis/cert-manager.io/v1/namespaces/" +:+ namespace a +:+ "/certificates" in
  r ← call (EvCertificatesGet uri) (Certificates_Get env uri);
  match r with
  | Err err => mret (Err (Errorf_w "failed to get certificates: %w" err))
  | Ok items => getCRD_range a items
  end.

(** [tls.Dial(network, addr, nil)]: dial, then handshake. *)
Definition tls_Dial (network addr : string) : Proc (result tls_Conn) :=
  call (EvTlsDial network addr)
    match net_Dial env network addr with
    | Some err => Err err
    | None => tls_Handshake env addr
    end.

Definition checkCert (serviceURL : string) : Proc (result Go.Time) :=
  r ← tls_Dial "tcp" (serviceURL +:+ ":443");
  match r with
  | Err err => mret (Err (Errorf_w "Server doesn't support SSL certificate err: %w" err))
  | Ok conn =>
      v ← call (EvVerifyHostname serviceURL) (VerifyHostname conn serviceURL);
      match v with
      | Some err => mret (Err (Errorf_w "Hostname doesn't match with certificate: %w" err))
      | None =>
          leaf ← index (PeerCertificates conn) 0;
          let expiry := x509_NotAfter leaf in
          leaf' ← index (PeerCertificates conn) 0;
          log (LogIssuerExpiry (Issuer leaf') expiry);;
          mret (Ok expiry)
      end
  end.

(** [http.NewRequest(method, url, nil)]: only a URL that does not parse
    makes it fail for the method ["GET"]. *)
Definition http_NewRequest (method url : string) : result Request :=
  match url_Parse env url with
  | Some err => Err err
  | None => Ok (mkRequest method url)
  end.

(** The deferred [resp.Body.Close()] calls run when the function
    returns, last one first. *)
Definition run_deferred (deferred : list nat) : Proc unit :=
  (map EvBodyClose deferred, Returns tt).

(** The loop of [reloadFluentdConfig] and the [return nil] after it.
    [k] counts the requests already sent, [deferred] holds the responses
    whose body is to be closed on return. *)
Fixpoint reloadFluentdConfig_range (deferred : list nat) (k : nat) (ips : list string)
    : Proc (option error) :=
  match ips with
  | [] => run_deferred deferred;; mret None
  | ip :: rest =>
      log (LogReloading ip);;
      let url := reload_url ip in
      match http_NewRequest "GET" url with
      | Err err =>
          run_deferred deferred;;
          mret (Some (Errorf_w "failed to create request: %w" err))
      | Ok req =>
          let client := mkClient (5 * Second) in
          r ← call (EvHttpDo (Timeout client) req) (client_Do env k req);
          match r with
          | Err err =>
              run_deferred deferred;;
              mret (Some (Errorf_w "failed to send request: %w" err))
          | Ok resp =>
              let deferred := k :: deferred in
              if 400 <=? StatusCode resp then
                run_deferred deferred;;
                mret (Some (Errorf_s "failed to reload fluentd config: %s" (Status_line resp)))
              else
                b ← call (EvReadBody k) (Body resp);
                match b with
                | Err err =>
                    run_deferred deferred;;
                    mret (Some (Errorf_w "failed to read response body: %w" err))
                | Ok b =>
                    log (LogResponse b);;
                    reloadFluentdConfig_range deferred (S k) rest
                end
          end
      end
  end.

Definition reloadFluentdConfig (ips : list string) : Proc (option error) :=
  reloadFluentdConfig_range [] 0%nat ips.

(** Lines 182-196 of [main]: the comparison of the two expiries and what
    follows it, with the three values the earlier stages produced. *)
Definition main_reconcile (fluentdIPs : list string) (expiry : Go.Time)
    (certificate : Certificate) : Proc unit :=
  log (LogWillExpire expiry);;
  let t := metav1.NewTime expiry in
  if metav1.Equal (NotAfter (Status certificate)) (Some t) then
    log (LogWillRenew (RenewalTime (Status certificate)));;
    log LogValid;;
    mret tt
  else
    log LogNotValid;;
    log (LogShouldExpire (NotAfter (Status certificate)) expiry);;
    e ← reloadFluentdConfig fluentdIPs;
    match e with
    | Some err => panic (PanicError err)
    | None => mret tt
    end.

(** [main]; returning from it is exit status 0, a panic is the abnormal
    termination. *)
Definition main : Proc unit :=
  e ← call EvInClusterConfig (rest_InClusterConfig env);
  match e with
  | Some err => panic (PanicError err)
  | None =>
  e ← call EvNewForConfig (kubernetes_NewForConfig env);
  match e with
  | Some err => panic (PanicError err)
  | None =>
  config ← getConfig;
  let app := mkApp (cfg_namespace config) (cfg_certName config) in
  r ← getFluentdIPs app;
  match r with
  | Err err => panic (PanicError err)
  | Ok fluentdIPs =>
  r ← checkCert (cfg_serviceURL config);
  match r with
  | Err err => panic (PanicError err)
  | Ok expiry =>
  r ← getCRD app;
  match r with
  | Err err => panic (PanicError err)
  | Ok certificate => main_reconcile fluentdIPs expiry certificate
  end end end end end.

End Program.

Arguments main env : simpl never.

(** ** The revision of [main] without [getCRD] (main.go)

    That [main] walks the certificate list itself and treats every
    certificate that passes the test below as the fluentd certificate.
    Only that test is needed here. *)

Module Legacy.

(** [strings.Contains(strings.ToLower(cert.Name), namespace)] *)
Definition is_fluentd_certificate (lower_runes : string -> string) (namespace : string)
    (cert : Certificate) : bool :=
  Contains (ToLower lower_runes (Name cert)) namespace.

(** This revision has one more log line, "Found certificate". *)
Inductive Ev : Type :=
| Shared (e : Event)
| LogFound (certName : string).

Definition Run (A : Type) : Type := (list Ev * outcome A)%type.

Definition run_ret {A} (a : A) : Run A := ([], Returns a).

Definition run_bind {A B} (f : A -> Run B) (m : Run A) : Run B :=
  match m with
  | (t, Returns a) => let '(t', o) := f a in (t ++ t', o)
  | (t, Panics p) => (t, Panics p)
  end.

#[global] Instance Run_ret : MRet Run := @run_ret.
#[global] Instance Run_bind : MBind Run := @run_bind.

(** A computation of the functions the two revisions have in common. *)
Definition lift {A} (m : Proc A) : Run A := (Shared <$> fst m, snd m).

Definition found (certName : string) : Run unit := ([LogFound certName], Returns tt).

Definition die {A} (p : panic_value) : Run A := ([], Panics p).

(** The events of a trace that the two revisions have in common. *)
Definition shared (t : list Ev) : list Event :=
  omap (λ e, match e with Shared e => Some e | LogFound _ => None end) t.

(** [for _, x := range items { ... }] with [continue] but no [break]. *)
Fixpoint range {A S} (items : list A) (body : S -> A -> Run S) (s : S) : Run S :=
  match items with
  | [] => mret s
  | x :: rest => s' ← body s x; range rest body s'
  end.

Section Program.

(** [env] answers the calls made once; [at_probe j] is the world as the
    [j]-th probe of the run finds it; [lower_runes] is [unicode.ToLower]
    over a string. *)
Context (env : Env) (at_probe : nat -> Env) (lower_runes : string -> string).

(** [getFluentdIPs(namespace, clientset)]: the body of the method of the
    other revision, on [namespace]. *)
Definition getFluentdIPs (namespace : string) : Proc (result (list string)) :=
  let selector := "app=" +:+ namespace in
  r ← call (EvPodsList namespace selector) (Pods_List env namespace selector);
  match r with
  | Err err => mret (Err (Errorf_w "failed to get fluentd pods: %w" err))
  | Ok items =>
      fluentdIPs ← for_range items collect_ip [];
      mret (Ok fluentdIPs)
  end.

(** The body of the loop of [main].  The state counts the probes made
    and the reload requests sent so far; [checkCert] and
    [reloadFluentdConfig] are those of the other revision, word for
    word. *)
Definition inspect (namespace serviceURL : string) (fluentdIPs : list string)
    (st : nat * nat) (cert : Certificate) : Run (nat * nat) :=
  let '(probes, sent) := st in
  if negb (Contains (ToLower lower_runes (Name cert)) namespace) then
    lift (log (LogNotFluentdCert (Name cert)));;
    mret st
  else
    found (Name cert);;
    r ← lift (checkCert (at_probe probes) serviceURL);
    match r with
    | Err err => die (PanicError err)
    | Ok expiry =>
        lift (log (LogWillExpire expiry));;
        let t := metav1.NewTime expiry in
        if metav1.Equal (NotAfter (Status cert)) (Some t) then
          lift (log (LogWillRenew (RenewalTime (Status cert))));;
          lift (log LogValid);;
          mret (S probes, sent)
        else
          lift (log LogNotValid);;
          lift (log (LogShouldExpire (NotAfter (Status cert)) expiry));;
          e ← lift (reloadFluentdConfig_range env [] sent fluentdIPs);
          match e with
          | Some err => die (PanicError err)
          | None => mret (S probes, (sent + length fluentdIPs)%nat)
          end
    end.

Definition main : Run unit :=
  e ← lift (call EvInClusterConfig (rest_InClusterConfig env));
  match e with
  | Some err => die (PanicError err)
  | None =>
  e ← lift (call EvNewForConfig (kubernetes_NewForConfig env));
  match e with
  | Some err => die (PanicError err)
  | None =>
  v ← lift (LookupEnv env "FLUENTD_NAMESPACE");
  match v with
  | None => die (PanicString "FLUENTD_NAMESPACE is not set")
  | Some namespace =>
  v ← lift (LookupEnv env "FLUENTD_SERVICE_URL");
  match v with
  | None => die (PanicString "FLUENTD_SERVICE_ENDPOINT is not set")
  | Some serviceURL =>
  r ← lift (getFluentdIPs namespace);
  match r with
  | Err err => die (PanicError err)
  | Ok fluentdIPs =>
  let uri := "/apis/cert-manager.io/v1/namespaces/" +:+ namespace +:+ "/certificates" in
  r ← lift (call (EvCertificatesGet uri) (Certificates_Get env uri));
  match r with
  | Err err => die (PanicError err)
  | Ok items =>
  range items (inspect namespace serviceURL fluentdIPs) (0%nat, 0%nat);;
  mret tt
  end end end end end end.

End Program.

End Legacy.

(** ** Concrete worlds, used to run the program *)

Module Scenario.

Definition env_vars (key : string) : option string :=
  if String.eqb key "FLUENTD_SERVICE_URL" then Some "logging.donchev.is"
  else if String.eqb key "FLUENTD_CERT_NAME" then Some "fluentd-tls"
  else if String.eqb key "FLUENTD_NAMESPACE" then Some "logging"
  else None.

Definition stateful (name ip : string) : Pod :=
  mkPod name {[ "app" := "logging"; statefulset_label := name ]} ip.

Definition stateless (name ip : string) : Pod :=
  mkPod name {[ "app" := "logging" ]} ip.

(** 2024-03-01T00:00:00Z and 2024-06-01T00:00:00Z, Unix seconds. *)
Definition march : Go.Time := mkTime 1709251200 0 "UTC".
Definition june : Go.Time := mkTime 1717200000 0 "UTC".
(** The same second as [march], half a second later. *)
Definition march_and_a_half : Go.Time := mkTime 1709251200 500000000 "UTC".
(** The instant of [march], printed in another zone. *)
Definition march_local : Go.Time := mkTime 1709251200 0 "Local".

Definition cert (name : string) (notAfter : option Go.Time) : Certificate :=
  mkCertificate name (mkStatus (metav1.NewTime <$> notAfter) None).

Definition served (expiry : Go.Time) : tls_Conn :=
  mkConn [mkX509 "CN=R3,O=ISRG,C=US" expiry] (λ _, None).

Definition ok_200 : result Response := Ok (mkResponse 200 "200 OK" (Ok "reloaded")).

Definition unavailable : result Response :=
  Ok (mkResponse 503 "503 Service Unavailable" (Ok "")).

Definition world (pods : list Pod) (certs : list Certificate) (live : Go.Time)
    (do : nat -> Request -> result Response) : Env :=
  {| rest_InClusterConfig := None;
     kubernetes_NewForConfig := None;
     os_LookupEnv := env_vars;
     Pods_List := λ _ _, Ok pods;
     Certificates_Get := λ _, Ok certs;
     net_Dial := λ _ _, None;
     tls_Handshake := λ _, Ok (served live);
     url_Parse := λ _, None;
     client_Do := do;
     unicode_EqualFold := λ _ _, false |}.

Definition three_pods : list Pod :=
  [stateful "fluentd-0" "10.0.0.1"; stateless "debug" "10.0.0.9"; stateful "fluentd-1" "10.0.0.2"].

Definition two_certs (notAfter : option Go.Time) : list Certificate :=
  [cert "other-tls" (Some june); cert "FLUENTD-TLS" notAfter].

Definition replicas : list Pod :=
  [stateful "fluentd-0" "10.0.0.1"; stateful "fluentd-1" "10.0.0.2";
   stateful "fluentd-2" "10.0.0.3"].

Definition addresses : list string := ["10.0.0.1"; "10.0.0.2"; "10.0.0.3"].

Definition always_ok : nat -> Request -> result Response := λ _ _, ok_200.

(** The record and the served certificate both expire in March. *)
Definition unchanged : Env :=
  world replicas (two_certs (Some march)) march always_ok.

(** The certificate was renewed, fluentd still has to reload. *)
Definition renewed : Env :=
  world replicas (two_certs (Some march)) june always_ok.

(** As [renewed], but the second replica answers 503. *)
Definition second_unavailable : Env :=
  world replicas (two_certs (Some march)) june
    (λ k _, if Nat.eqb k 1 then unavailable else ok_200).

(** As [renewed], but the first replica's answer cannot be read to its
    end. *)
Definition truncated_body : Env :=
  world replicas (two_certs (Some march)) june
    (λ _ _, Ok (mkResponse 200 "200 OK" (Err (LibError "unexpected EOF")))).

(** The certificate resource has no [status.notAfter] yet. *)
Definition no_recorded_expiry : Env :=
  world replicas (two_certs None) june always_ok.

(** The expiries differ, and no pod is a statefulset member. *)
Definition no_replica : Env :=
  world [stateless "debug" "10.0.0.9"] (two_certs (Some march)) june always_ok.

(** The served expiry is half a second after the recorded one. *)
Definition half_a_second_apart : Env :=
  world replicas (two_certs (Some march)) march_and_a_half always_ok.

(** Listing the pods is forbidden. *)
Definition pods_forbidden : Env :=
  {| rest_InClusterConfig := None;
     kubernetes_NewForConfig := None;
     os_LookupEnv := env_vars;
     Pods_List := λ _ _, Err (LibError "pods is forbidden");
     Certificates_Get := λ _, Ok (two_certs (Some march));
     net_Dial := λ _ _, None;
     tls_Handshake := λ _, Ok (served june);
     url_Parse := λ _, None;
     client_Do := always_ok;
     unicode_EqualFold := λ _ _, false |}.

Definition the_certificate (notAfter : option Go.Time) : Certificate :=
  cert "FLUENTD-TLS" notAfter.

(** Two certificates whose names contain the namespace, both with a
    recorded expiry other than the served one, and one other certificate. *)
Definition two_logging_certificates : Env :=
  world replicas
    [cert "Logging-A" (Some march); cert "x" None; cert "b-logging" None]
    june always_ok.

(** The namespace is "fluentd": the certificate named after the target
    is also the only one whose name contains the namespace. *)
Definition fluentd_namespace : Env :=
  {| rest_InClusterConfig := None;
     kubernetes_NewForConfig := None;
     os_LookupEnv := λ key,
       if String.eqb key "FLUENTD_NAMESPACE" then Some "fluentd" else env_vars key;
     Pods_List := λ _ _, Ok replicas;
     Certificates_Get := λ _, Ok (two_certs (Some march));
     net_Dial := λ _ _, None;
     tls_Handshake := λ _, Ok (served june);
     url_Parse := λ _, None;
     client_Do := always_ok;
     unicode_EqualFold := λ _ _, false |}.

(** Only the service URL is set. *)
Definition cert_name_unset : Env :=
  {| rest_InClusterConfig := None;
     kubernetes_NewForConfig := None;
     os_LookupEnv := λ key,
       if String.eqb key "FLUENTD_SERVICE_URL" then Some "logging.donchev.is" else None;
     Pods_List := λ _ _, Ok replicas;
     Certificates_Get := λ _, Ok (two_certs (Some march));
     net_Dial := λ _ _, None;
     tls_Handshake := λ _, Ok (served march);
     url_Parse := λ _, None;
     client_Do := always_ok;
     unicode_EqualFold := λ _ _, false |}.

Definition the_config : config :=
  mkConfig "logging.donchev.is" "fluentd-tls" "logging".

End Scenario.

(** ** Vocabulary of the properties *)

(** A pod carries the statefulset membership label (any value). *)
Definition has_statefulset_label (pod : Pod) : Prop :=
  is_Some (Labels pod !! statefulset_label).

(** A certificate's name is the target up to case, as [getCRD] tests it. *)
Definition name_matches (env : Env) (target : string) (cert : Certificate) : bool :=
  EqualFold (unicode_EqualFold env) (Name cert) target.

(** A string of ASCII bytes only. *)
Definition all_ascii (s : string) : Prop :=
  Forall (λ c, is_ascii c = true) (list_ascii_of_string s).

(** What one round of the byte loop of [strings.EqualFold] decides for two
    ASCII bytes. *)
Definition bytes_fold_equal (cs ct : ascii) : bool :=
  let sr := byte_val cs in
  let tr := byte_val ct in
  if tr =? sr then true
  else
    let '(sr, tr) := if tr <? sr then (tr, sr) else (sr, tr) in
    ascii_fold_eq sr tr.

(** The check of [bytes_fold_equal] against [to_lower], for one pair of
    bytes given by their codes. *)
Definition fold_agrees_with_lower (n1 n2 : nat) : bool :=
  let c1 := ascii_of_nat n1 in
  let c2 := ascii_of_nat n2 in
  implb (is_ascii c1 && is_ascii c2)
    (negb (RuneSelf <=? Z.lor (byte_val c1) (byte_val c2))
     && Bool.eqb (bytes_fold_equal c1 c2) (Ascii.eqb (to_lower c1) (to_lower c2))).

(** The error [getCRD] ends with when no certificate matched. *)
Definition NotFoundError : error := Errorf "failed to find fluentd certificate".

(** The certificates listed before the first one that matches. *)
Fixpoint passed_over (env : Env) (target : string) (items : list Certificate)
    : list Certificate :=
  match items with
  | [] => []
  | cert :: rest =>
      if name_matches env target cert then [] else cert :: passed_over env target rest
  end.

Definition certificates_uri (a : app) : string :=
  "/apis/cert-manager.io/v1/namespaces/" +:+ namespace a +:+ "/certificates".

Definition pods_selector (a : app) : string := "app=" +:+ namespace a.

(** The reload request for one replica address. *)
Definition GET (ip : string) : Request := mkRequest "GET" (reload_url ip).

(** The [k]-th request of the process, sent to [ip], goes through: the URL
    parses, the transport answers, the status is below 400 and the body
    can be read. *)
Definition reload_succeeds (env : Env) (k : nat) (ip : string) : Prop :=
  url_Parse env (reload_url ip) = None ∧
  ∃ resp b, client_Do env k (GET ip) = Ok resp ∧ StatusCode resp < 400 ∧ Body resp = Ok b.


(** The errors [reloadFluentdConfig] returns, one per [return] of its
    loop. *)
Inductive ReloadError : error -> Prop :=
| create_request_failed err : ReloadError (Errorf_w "failed to create request: %w" err)
| send_request_failed err : ReloadError (Errorf_w "failed to send request: %w" err)
| reload_refused status : ReloadError (Errorf_s "failed to reload fluentd config: %s" status)
| read_body_failed err : ReloadError (Errorf_w "failed to read response body: %w" err).

(** The errors [checkCert] returns. *)
Inductive ProbeError : error -> Prop :=
| dial_failed err : ProbeError (Errorf_w "Server doesn't support SSL certificate err: %w" err)
| hostname_mismatch err : ProbeError (Errorf_w "Hostname doesn't match with certificate: %w" err).

(** The probe of [serviceURL] fails: the TCP connection to port 443 is not
    established, or the handshake fails, or the certificate does not match
    the host name. *)
Definition probe_fails (env : Env) (serviceURL : string) : Prop :=
  (∃ err, net_Dial env "tcp" (serviceURL +:+ ":443") = Some err) ∨
  (net_Dial env "tcp" (serviceURL +:+ ":443") = None ∧
     ∃ err, tls_Handshake env (serviceURL +:+ ":443") = Err err) ∨
  (net_Dial env "tcp" (serviceURL +:+ ":443") = None ∧
     ∃ conn err, tls_Handshake env (serviceURL +:+ ":443") = Ok conn ∧
                 VerifyHostname conn serviceURL = Some err).

(** The failure condition of one reload request in the words of the
    specification, kept apart from the program to be compared with it: the
    fan-out over the single address [ip] fails exactly when the request
    errors or the answer's status is 400 or more. *)
Definition fails_only_on_error_or_status (env : Env) (ip : string) : Prop :=
  ending (reloadFluentdConfig env [ip]) ≠ Returns None <->
  ((∃ err, client_Do env 0 (GET ip) = Err err) ∨
   (∃ resp, client_Do env 0 (GET ip) = Ok resp ∧ 400 ≤ StatusCode resp)).

(** The three environment variables [getConfig] requires. *)
Definition required_variables : list string :=
  ["FLUENTD_SERVICE_URL"; "FLUENTD_CERT_NAME"; "FLUENTD_NAMESPACE"].

(** The [app] value [main] builds from the configuration. *)
Definition app_of (cfg : config) : app := mkApp (cfg_namespace cfg) (cfg_certName cfg).

(** The Kubernetes client could be built. *)
Definition client_ready (env : Env) : Prop :=
  rest_InClusterConfig env = None ∧ kubernetes_NewForConfig env = None.

(** The run has reached the comparison: the client was built, the
    configuration read, and discovery, probe and lookup returned
    [fluentdIPs], [expiry] and [certificate]. *)
Definition Reconciling (env : Env) (fluentdIPs : list string) (expiry : Go.Time)
    (certificate : Certificate) : Prop :=
  client_ready env ∧
  ∃ cfg,
    ending (getConfig env) = Returns cfg ∧
    ending (getFluentdIPs env (app_of cfg)) = Returns (Ok fluentdIPs) ∧
    ending (checkCert env (cfg_serviceURL cfg)) = Returns (Ok expiry) ∧
    ending (getCRD env (app_of cfg)) = Returns (Ok certificate).

(** What the run did before the comparison. *)
Definition prologue (env : Env) (cfg : config) : list Event :=
  [EvInClusterConfig; EvNewForConfig]
    ++ trace (getConfig env)
    ++ trace (getFluentdIPs env (app_of cfg))
    ++ trace (checkCert env (cfg_serviceURL cfg))
    ++ trace (getCRD env (app_of cfg)).

(** The comparison of [main], on the record and the live expiry. *)
Definition expiries_equal (certificate : Certificate) (expiry : Go.Time) : bool :=
  metav1.Equal (NotAfter (Status certificate)) (Some (metav1.NewTime expiry)).

(** How [main] ends after [reloadFluentdConfig] ended with [o]. *)
Definition after_reload (o : outcome (option error)) : outcome unit :=
  match o with
  | Returns None => Returns tt
  | Returns (Some err) => Panics (PanicError err)
  | Panics p => Panics p
  end.

(** The stages of a run, in the order of the program text. *)
Inductive Stage : Type :=
| ClientSetup | Configuring | Discovering | Probing | LookingUp | Comparing | Reloading.

Definition stage_rank (s : Stage) : nat :=
  match s with
  | ClientSetup => 0 | Configuring => 1 | Discovering => 2 | Probing => 3
  | LookingUp => 4 | Comparing => 5 | Reloading => 6
  end.

(** The stage an event belongs to. *)
Definition stage_of (e : Event) : Stage :=
  match e with
  | EvInClusterConfig | EvNewForConfig => ClientSetup
  | EvLookupEnv _ => Configuring
  | EvPodsList _ _ | EvLog (LogPodSkipped _) => Discovering
  | EvTlsDial _ _ | EvVerifyHostname _ | EvLog (LogIssuerExpiry _ _) => Probing
  | EvCertificatesGet _ | EvLog (LogNotFluentdCert _) => LookingUp
  | EvLog (LogWillExpire _) | EvLog (LogWillRenew _) | EvLog LogValid
  | EvLog LogNotValid | EvLog (LogShouldExpire _ _) => Comparing
  | EvHttpDo _ _ | EvReadBody _ | EvBodyClose _
  | EvLog (LogReloading _) | EvLog (LogResponse _) => Reloading
  end.

Definition stage_le (e1 e2 : Event) : Prop :=
  (stage_rank (stage_of e1) <= stage_rank (stage_of e2))%nat.

(** Every event of the trace belongs to stage [s] or to an earlier one. *)
Definition stops_at (s : Stage) (t : list Event) : Prop :=
  Forall (λ e, (stage_rank (stage_of e) <= stage_rank s)%nat) t.

(** Every event of the trace belongs to stage [s]. *)
Definition in_stage (s : Stage) (t : list Event) : Prop :=
  Forall (λ e, stage_of e = s) t.

(** The calls to the cluster and to the TLS peer, one kind each. *)
Definition is_stage_call (s : Stage) (e : Event) : bool :=
  match s, e with
  | Discovering, EvPodsList _ _ => true
  | Probing, EvTlsDial _ _ => true
  | LookingUp, EvCertificatesGet _ => true
  | _, _ => false
  end.

Definition count_calls (s : Stage) (t : list Event) : nat :=
  length (List.filter (is_stage_call s) t).

(** A trace that goes through the stages in order, each at most once:
    one segment per stage, possibly empty, with at most one listing call
    or dial in its segment. *)
Definition staged (t : list Event) : Prop :=
  ∃ t0 t1 t2 t3 t4 t5 t6,
    t = t0 ++ t1 ++ t2 ++ t3 ++ t4 ++ t5 ++ t6 ∧
    in_stage ClientSetup t0 ∧ in_stage Configuring t1 ∧ in_stage Discovering t2 ∧
    in_stage Probing t3 ∧ in_stage LookingUp t4 ∧ in_stage Comparing t5 ∧
    in_stage Reloading t6 ∧
    (count_calls Discovering t2 <= 1)%nat ∧
    (count_calls Probing t3 <= 1)%nat ∧
    (count_calls LookingUp t4 <= 1)%nat.

(** The responses whose body a trace closes, in the order of the
    [Close] calls. *)
Definition body_closes (t : list Event) : list nat :=
  omap (λ e, match e with EvBodyClose k => Some k | _ => None end) t.

(** The message [getConfig] panics with for a variable that is not set. *)
Definition not_set (key : string) : panic_value := PanicString (key +:+ " is not set").

(** The certificates that the revision without [getCRD] takes for the
    fluentd certificate, and among some certificates those whose recorded
    expiry is not [expiry]. *)
Definition selected (lower_runes : string -> string) (namespace : string)
    (items : list Certificate) : list Certificate :=
  filter (λ c, Legacy.is_fluentd_certificate lower_runes namespace c = true) items.

Definition stale (expiry : Go.Time) (certs : list Certificate) : list Certificate :=
  filter (λ c, expiries_equal c expiry = false) certs.

Definition legacy_uri (namespace : string) : string :=
  "/apis/cert-manager.io/v1/namespaces/" +:+ namespace +:+ "/certificates".

(** What the revision without [getCRD] did before its loop. *)
Definition legacy_prologue (env : Env) (namespace : string) : list Event :=
  [EvInClusterConfig; EvNewForConfig;
   EvLookupEnv "FLUENTD_NAMESPACE"; EvLookupEnv "FLUENTD_SERVICE_URL"]
    ++ trace (Legacy.getFluentdIPs env namespace)
    ++ [EvCertificatesGet (legacy_uri namespace)].

(** The world [env] with the environment variable [key] set to [v], or
    unset. *)
Definition with_variable (env : Env) (key : string) (v : option string) : Env :=
  {| rest_InClusterConfig := rest_InClusterConfig env;
     kubernetes_NewForConfig := kubernetes_NewForConfig env;
     os_LookupEnv := λ k, if String.eqb k key then v else os_LookupEnv env k;
     Pods_List := Pods_List env;
     Certificates_Get := Certificates_Get env;
     net_Dial := net_Dial env;
     tls_Handshake := tls_Handshake env;
     url_Parse := url_Parse env;
     client_Do := client_Do env;
     unicode_EqualFold := unicode_EqualFold env |}.

(** How [main] ends after its loop ended with [o]. *)
Definition after_loop {S : Type} (o : outcome S) : outcome unit :=
  match o with
  | Returns _ => Returns tt
  | Panics p => Panics p
  end.

(** The lookup in the words of the specification, read on the loop of the
    revision without [getCRD] and kept apart from the program to be
    compared with it: with [target] the value of [FLUENTD_CERT_NAME], the
    run takes the one listed certificate whose name equals [target] up to
    case for the fluentd certificate ("Found certificate"), and ends with
    the not-found error when no listed name does. *)
Definition loop_looks_up_by_name (env : Env) (at_probe : nat -> Env)
    (lower_runes : string -> string) : Prop :=
  ∀ ns target items,
    os_LookupEnv env "FLUENTD_NAMESPACE" = Some ns ->
    os_LookupEnv env "FLUENTD_CERT_NAME" = Some target ->
    Certificates_Get env (legacy_uri ns) = Ok items ->
    (∀ cert, cert ∈ items ->
       name_matches env target cert = true ->
       (∀ c, c ∈ items -> name_matches env target c = true -> c = cert) ->
       Legacy.LogFound (Name cert) ∈ fst (Legacy.main env at_probe lower_runes)) ∧
    ((∀ c, c ∈ items -> name_matches env target c = false) ->
       snd (Legacy.main env at_probe lower_runes) = Panics (PanicError NotFoundError)).

(** ** Computations: how traces and outcomes compose *)

Ltac proc_unfold :=
  unfold mbind, mret, Proc_bind, Proc_ret, proc_bind, proc_ret,
    call, log, panic, trace, ending in *.

Lemma bind_returns {A B} (m : Proc A) (f : A -> Proc B) t a :
  m = (t, Returns a) ->
  m ≫= f = (t ++ trace (f a), ending (f a)).
Proof. intros ->. proc_unfold. simpl. by destruct (f a). Qed.

Lemma http_requests_app t1 t2 :
  http_requests (t1 ++ t2) = http_requests t1 ++ http_requests t2.
Proof. apply omap_app. Qed.

Lemma for_range_cons {A S} (x : A) (rest : list A) (body : S -> A -> Proc S) (s : S) :
  for_range (x :: rest) body s = body s x ≫= for_range rest body.
Proof. reflexivity. Qed.

(** ** Time comparison *)

Lemma Time_Equal_spec (t u : Go.Time) :
  Time_Equal t u = true <-> sec t = sec u ∧ nsec t = nsec u.
Proof.
  unfold Time_Equal. rewrite andb_true_iff, !Z.eqb_eq. tauto.
Qed.

Lemma Time_Equal_loc (t : Go.Time) l : Time_Equal t (mkTime (sec t) (nsec t) l) = true.
Proof. apply Time_Equal_spec. by simpl. Qed.

Lemma Equal_nil_l (u : metav1.Time) : metav1.Equal None (Some u) = false.
Proof. reflexivity. Qed.

(** ** Replica discovery *)

Section Discovery.

Context (env : Env).

Lemma collect_ip_labelled (acc : list string) (pod : Pod) v :
  Labels pod !! statefulset_label = Some v ->
  collect_ip acc pod = ([], Returns (acc ++ [PodIP pod])).
Proof. intros H. unfold collect_ip. by rewrite H. Qed.

Lemma collect_ip_unlabelled (acc : list string) (pod : Pod) :
  Labels pod !! statefulset_label = None ->
  collect_ip acc pod = ([EvLog (LogPodSkipped (Pod_Name pod))], Returns acc).
Proof. intros H. unfold collect_ip. by rewrite H. Qed.

(** The loop of [getFluentdIPs] appends the IPs of the labelled pods to
    what it has, and logs one line per other pod. *)
Lemma for_range_collect_ip (pods : list Pod) (acc : list string) :
  for_range pods (collect_ip) acc =
    (EvLog ∘ LogPodSkipped ∘ Pod_Name <$> filter (λ p, ¬ has_statefulset_label p) pods,
     Returns (acc ++ (PodIP <$> filter has_statefulset_label pods))).
Proof.
  revert acc. induction pods as [|pod pods IH]; intros acc.
  - simpl. by rewrite app_nil_r.
  - rewrite for_range_cons.
    destruct (Labels pod !! statefulset_label) as [v|] eqn:Hl.
    + rewrite filter_cons_False, filter_cons_True
        by (unfold has_statefulset_label; rewrite Hl; eauto).
      erewrite bind_returns by (eapply collect_ip_labelled; eauto).
      rewrite IH. simpl. by rewrite <- app_assoc.
    + rewrite filter_cons_True, filter_cons_False
        by (unfold has_statefulset_label; rewrite Hl; try intros ?%dec_stable;
            by apply is_Some_None).
      erewrite bind_returns by (eapply collect_ip_unlabelled; eauto).
      by rewrite IH.
Qed.

Lemma getFluentdIPs_listed (a : app) (pods : list Pod) :
  Pods_List env (namespace a) (pods_selector a) = Ok pods ->
  getFluentdIPs env a =
    (EvPodsList (namespace a) (pods_selector a)
       :: (EvLog ∘ LogPodSkipped ∘ Pod_Name <$> filter (λ p, ¬ has_statefulset_label p) pods),
     Returns (Ok (PodIP <$> filter has_statefulset_label pods))).
Proof.
  intros H. unfold getFluentdIPs. fold (pods_selector a). rewrite H.
  erewrite bind_returns by reflexivity. simpl.
  erewrite bind_returns by apply for_range_collect_ip.
  simpl. by rewrite app_nil_r.
Qed.

Lemma getFluentdIPs_failed (a : app) (err : error) :
  Pods_List env (namespace a) (pods_selector a) = Err err ->
  getFluentdIPs env a =
    ([EvPodsList (namespace a) (pods_selector a)],
     Returns (Err (Errorf_w "failed to get fluentd pods: %w" err))).
Proof.
  intros H. unfold getFluentdIPs. fold (pods_selector a). by rewrite H.
Qed.

End Discovery.

(** C4. For every list of pods the cluster returns, discovery returns the
    pod IPs of exactly the pods that carry the statefulset membership label
    ["statefulset.kubernetes.io/pod-name"], in list order: every returned
    address is the IP of a labelled pod of the list, every labelled pod
    contributes its IP, and each pod without the label is only logged as
    skipped. *)
Theorem getFluentdIPs_filter_exact (env : Env) (a : app) (pods : list Pod) :
  Pods_List env (namespace a) (pods_selector a) = Ok pods ->
  ∃ ips : list string,
    ending (getFluentdIPs env a) = Returns (Ok ips) ∧
    ips = PodIP <$> filter has_statefulset_label pods ∧
    (∀ ip, ip ∈ ips -> ∃ pod, pod ∈ pods ∧ has_statefulset_label pod ∧ PodIP pod = ip) ∧
    (∀ pod, pod ∈ pods -> has_statefulset_label pod -> PodIP pod ∈ ips) ∧
    (∀ pod, pod ∈ pods -> ¬ has_statefulset_label pod ->
       EvLog (LogPodSkipped (Pod_Name pod)) ∈ trace (getFluentdIPs env a)).
Proof.
  intros Hlist. rewrite (getFluentdIPs_listed env a pods Hlist).
  eexists. split; [reflexivity|]. split; [reflexivity|]. repeat split.
  - intros ip (pod & -> & Hin)%list_elem_of_fmap.
    apply list_elem_of_filter in Hin as [Hl Hin]. eauto.
  - intros pod Hin Hl. apply list_elem_of_fmap. exists pod. split; [done|].
    by apply list_elem_of_filter.
  - intros pod Hin Hl. simpl. right.
    apply list_elem_of_fmap. exists pod. split; [done|].
    by apply list_elem_of_filter.
Qed.

Lemma getFluentdIPs_filter_exact_witness :
  ending (getFluentdIPs
            (Scenario.world Scenario.three_pods (Scenario.two_certs None) Scenario.march
               (λ _ _, Scenario.ok_200))
            (mkApp "logging" "fluentd-tls"))
  = Returns (Ok ["10.0.0.1"; "10.0.0.2"]).
Proof.
  destruct (getFluentdIPs_filter_exact
              (Scenario.world Scenario.three_pods (Scenario.two_certs None) Scenario.march
                 (λ _ _, Scenario.ok_200))
              (mkApp "logging" "fluentd-tls") Scenario.three_pods eq_refl)
    as (ips & -> & -> & _).
  vm_compute. reflexivity.
Defined.

(** ** Case folding *)

Lemma fold_agrees_with_lower_all (c1 c2 : ascii) :
  is_ascii c1 = true -> is_ascii c2 = true ->
  (RuneSelf <=? Z.lor (byte_val c1) (byte_val c2)) = false ∧
  (bytes_fold_equal c1 c2 = true <-> to_lower c1 = to_lower c2).
Proof.
  intros H1 H2.
  assert (forallb (λ n1, forallb (fold_agrees_with_lower n1) (seq 0 256)) (seq 0 256) = true)
    as Hall by (vm_compute; reflexivity).
  rewrite forallb_forall in Hall.
  specialize (Hall (nat_of_ascii c1)).
  rewrite forallb_forall in Hall.
  specialize (Hall (proj2 (in_seq _ _ _) (conj (Nat.le_0_l _) (nat_ascii_bounded c1)))
                   (nat_of_ascii c2)
                   (proj2 (in_seq _ _ _) (conj (Nat.le_0_l _) (nat_ascii_bounded c2)))).
  unfold fold_agrees_with_lower in Hall. rewrite !ascii_nat_embedding, H1, H2 in Hall.
  cbn [andb implb] in Hall. apply andb_true_iff in Hall as [Hlor Heq].
  apply negb_true_iff in Hlor. split; [done|].
  apply Bool.eqb_prop in Heq. rewrite Heq. apply Ascii.eqb_eq.
Qed.

(** On ASCII strings [strings.EqualFold] never reaches its rune loop, and
    holds exactly when the two strings are equal once lower-cased. *)
Lemma EqualFold_ascii (fold_runes : string -> string -> bool) (s t : string) :
  all_ascii s -> all_ascii t ->
  EqualFold fold_runes s t = true <-> lower s = lower t.
Proof.
  revert t. induction s as [|cs s IH]; intros [|ct t] Hs Ht; cbn [EqualFold lower];
    try (split; [done|discriminate]); [done|].
  apply Forall_cons in Hs as [Hcs Hs]. apply Forall_cons in Ht as [Hct Ht].
  destruct (fold_agrees_with_lower_all cs ct Hcs Hct) as [-> Hbytes].
  unfold bytes_fold_equal in Hbytes. cbn zeta in Hbytes |- *.
  destruct (byte_val ct =? byte_val cs).
  - rewrite (IH t Hs Ht). split.
    + intros ->. f_equal. by apply Hbytes.
    + by intros [= _ ->].
  - destruct (byte_val ct <? byte_val cs);
      (destruct (ascii_fold_eq _ _);
       [ rewrite (IH t Hs Ht); split;
         [ intros ->; f_equal; by apply Hbytes | by intros [= _ ->] ]
       | split; [done|]; intros [= Hc _]; apply Hbytes in Hc; discriminate ]).
Qed.

(** ** Authoritative lookup *)

Section Lookup.

Context (env : Env).

(** The loop of [getCRD] is a search for the first certificate of the
    list whose name matches. *)
Lemma getCRD_range_find (a : app) (items : list Certificate) :
  ending (getCRD_range env a items) =
    match List.find (name_matches env (certName a)) items with
    | Some cert => Returns (Ok cert)
    | None => Returns (Err NotFoundError)
    end.
Proof.
  induction items as [|cert rest IH]; [reflexivity|].
  cbn [getCRD_range List.find]. unfold name_matches at 1.
  destruct (EqualFold _ (Name cert) (certName a)); [reflexivity|].
  erewrite bind_returns by reflexivity. exact IH.
Qed.

(** It logs the certificates it passes over, and nothing else. *)
Lemma getCRD_range_trace (a : app) (items : list Certificate) :
  trace (getCRD_range env a items) =
    EvLog ∘ LogNotFluentdCert ∘ Name <$> passed_over env (certName a) items.
Proof.
  induction items as [|cert rest IH]; [reflexivity|].
  cbn [getCRD_range passed_over]. unfold name_matches at 1.
  destruct (EqualFold _ (Name cert) (certName a)); [reflexivity|].
  erewrite bind_returns by reflexivity. cbn. by rewrite IH.
Qed.

Lemma getCRD_listed (a : app) (items : list Certificate) :
  Certificates_Get env (certificates_uri a) = Ok items ->
  getCRD env a =
    (EvCertificatesGet (certificates_uri a) :: trace (getCRD_range env a items),
     ending (getCRD_range env a items)).
Proof.
  intros H. unfold getCRD. fold (certificates_uri a). rewrite H.
  by erewrite bind_returns by reflexivity.
Qed.

Lemma getCRD_failed (a : app) (err : error) :
  Certificates_Get env (certificates_uri a) = Err err ->
  getCRD env a =
    ([EvCertificatesGet (certificates_uri a)],
     Returns (Err (Errorf_w "failed to get certificates: %w" err))).
Proof.
  intros H. unfold getCRD. fold (certificates_uri a). by rewrite H.
Qed.

(** With several matching names the one listed first wins. *)
Lemma getCRD_first_match (a : app) (before after : list Certificate) (cert : Certificate) :
  Certificates_Get env (certificates_uri a) = Ok (before ++ cert :: after) ->
  (∀ c, c ∈ before -> name_matches env (certName a) c = false) ->
  name_matches env (certName a) cert = true ->
  ending (getCRD env a) = Returns (Ok cert).
Proof.
  intros Hget Hbefore Hcert. rewrite (getCRD_listed _ _ Hget). simpl.
  rewrite getCRD_range_find. clear Hget.
  induction before as [|c before IH]; simpl.
  - by rewrite Hcert.
  - rewrite (Hbefore c) by left. apply IH. intros c' Hc'. apply Hbefore. by right.
Qed.

End Lookup.

(** Two certificates whose names both match: the lookup returns whichever
    is listed first. *)
Lemma getCRD_two_matches_first_listed :
  let old := Scenario.cert "fluentd-tls" (Some Scenario.march) in
  let new := Scenario.cert "FLUENTD-TLS" (Some Scenario.june) in
  let lookup certs :=
    ending (getCRD (Scenario.world [] certs Scenario.june Scenario.always_ok)
              (mkApp "logging" "fluentd-tls")) in
  lookup [old; new] = Returns (Ok old) ∧ lookup [new; old] = Returns (Ok new).
Proof. split; reflexivity. Qed.

(** The test of the revision without [getCRD] is containment of the
    namespace in the lower-cased name, not equality with a target name. *)
Lemma legacy_selects_by_containment (lower_runes : string -> string) :
  Legacy.is_fluentd_certificate lower_runes "logging" (Scenario.cert "FLUENTD-TLS" None)
    = false ∧
  Legacy.is_fluentd_certificate lower_runes "logging" (Scenario.cert "Logging-Ingress" None)
    = true.
Proof. split; reflexivity. Qed.

(** The list holds "other-tls" and "FLUENTD-TLS" and [FLUENTD_CERT_NAME] is
    "fluentd-tls": one name equals the target up to case, yet the loop of
    the revision without [getCRD], which looks for the namespace "logging"
    in the names, finds no certificate. *)
Lemma loop_looks_up_by_namespace_counterexample :
  ¬ loop_looks_up_by_name Scenario.renewed (λ _, Scenario.renewed) (λ s, s).
Proof.
  intros Hclaim.
  destruct (Hclaim "logging" "fluentd-tls" (Scenario.two_certs (Some Scenario.march))
              eq_refl eq_refl eq_refl) as [Hfound _].
  assert (Legacy.LogFound "FLUENTD-TLS"
            ∈ fst (Legacy.main Scenario.renewed (λ _, Scenario.renewed) (λ s, s))) as Hin.
  { apply (Hfound (Scenario.the_certificate (Some Scenario.march))).
    - right. left.
    - reflexivity.
    - intros c Hc Hm.
      apply elem_of_cons in Hc as [->|Hc]; [vm_compute in Hm; discriminate|].
      apply elem_of_cons in Hc as [->|Hc]; [reflexivity|].
      by apply elem_of_nil in Hc. }
  apply list_elem_of_In in Hin. vm_compute in Hin.
  repeat (destruct Hin as [Hin|Hin]; [discriminate|]). exact Hin.
Qed.

(** C3 (amended). Whatever the order in which the cluster lists the
    certificate resources, [getCRD], the lookup of the revision that reads
    [FLUENTD_CERT_NAME], returns the one certificate whose name equals the
    target up to case when there is exactly such a one, and the not-found
    error when no name matches. *)
Theorem getCRD_unique_match (env : Env) (a : app) (certs listed : list Certificate) :
  Certificates_Get env (certificates_uri a) = Ok listed ->
  listed ≡ₚ certs ->
  (∀ cert, cert ∈ certs ->
     name_matches env (certName a) cert = true ->
     (∀ c, c ∈ certs -> name_matches env (certName a) c = true -> c = cert) ->
     ending (getCRD env a) = Returns (Ok cert)) ∧
  ((∀ c, c ∈ certs -> name_matches env (certName a) c = false) ->
     ending (getCRD env a) = Returns (Err NotFoundError)).
Proof.
  intros Hget Hperm. rewrite (getCRD_listed env a listed Hget). simpl.
  rewrite getCRD_range_find. split.
  - intros cert Hin Hmatch Huniq.
    destruct (List.find _ listed) as [c|] eqn:Hfind.
    + apply find_some in Hfind as [Hc Hcm].
      apply list_elem_of_In in Hc. rewrite Hperm in Hc.
      by rewrite (Huniq c Hc Hcm).
    + rewrite <- Hperm in Hin. apply list_elem_of_In in Hin.
      pose proof (find_none _ _ Hfind _ Hin) as Hno. congruence.
  - intros Hnone.
    destruct (List.find _ listed) as [c|] eqn:Hfind; [|reflexivity].
    apply find_some in Hfind as [Hc Hcm].
    apply list_elem_of_In in Hc. rewrite Hperm in Hc.
    rewrite (Hnone c Hc) in Hcm. discriminate.
Qed.

(** The resource list holds ["other-tls"] and ["FLUENTD-TLS"], the target
    is ["fluentd-tls"]: the second one is returned, in both orders. *)
Lemma getCRD_unique_match_witness :
  ending (getCRD
            (Scenario.world [] (Scenario.two_certs (Some Scenario.march)) Scenario.march
               (λ _ _, Scenario.ok_200))
            (mkApp "logging" "fluentd-tls"))
  = Returns (Ok (Scenario.cert "FLUENTD-TLS" (Some Scenario.march))).
Proof.
  refine (proj1 (getCRD_unique_match
                   (Scenario.world [] (Scenario.two_certs (Some Scenario.march)) Scenario.march
                      (λ _ _, Scenario.ok_200))
                   (mkApp "logging" "fluentd-tls")
                   (rev (Scenario.two_certs (Some Scenario.march)))
                   (Scenario.two_certs (Some Scenario.march))
                   eq_refl _)
                (Scenario.cert "FLUENTD-TLS" (Some Scenario.march)) _ eq_refl _).
  - symmetry. apply Permutation_rev.
  - simpl. left.
  - intros c Hc Hm. simpl in Hc.
    apply elem_of_cons in Hc as [->|Hc]; [reflexivity|].
    apply elem_of_cons in Hc as [->|Hc]; [vm_compute in Hm; discriminate|].
    by apply elem_of_nil in Hc.
Defined.

(** ** Reload fan-out *)

Section Reload.

Context (env : Env).

Lemma range_nil d k :
  reloadFluentdConfig_range env d k [] = (EvBodyClose <$> d, Returns None).
Proof. cbn. by rewrite app_nil_r. Qed.

Lemma range_parse_error d k ip rest err :
  url_Parse env (reload_url ip) = Some err ->
  reloadFluentdConfig_range env d k (ip :: rest) =
    (EvLog (LogReloading ip) :: (EvBodyClose <$> d),
     Returns (Some (Errorf_w "failed to create request: %w" err))).
Proof.
  intros H. cbn [reloadFluentdConfig_range]. unfold http_NewRequest. rewrite H.
  cbn. by rewrite app_nil_r.
Qed.

Lemma range_transport_error d k ip rest err :
  url_Parse env (reload_url ip) = None ->
  client_Do env k (GET ip) = Err err ->
  reloadFluentdConfig_range env d k (ip :: rest) =
    ([EvLog (LogReloading ip); EvHttpDo (5 * Second) (GET ip)] ++ (EvBodyClose <$> d),
     Returns (Some (Errorf_w "failed to send request: %w" err))).
Proof.
  intros H1 H2. cbn [reloadFluentdConfig_range]. unfold http_NewRequest. rewrite H1.
  fold (GET ip). rewrite H2. cbn. by rewrite app_nil_r.
Qed.

Lemma range_bad_status d k ip rest resp :
  url_Parse env (reload_url ip) = None ->
  client_Do env k (GET ip) = Ok resp ->
  400 ≤ StatusCode resp ->
  reloadFluentdConfig_range env d k (ip :: rest) =
    ([EvLog (LogReloading ip); EvHttpDo (5 * Second) (GET ip)] ++ (EvBodyClose <$> k :: d),
     Returns (Some (Errorf_s "failed to reload fluentd config: %s" (Status_line resp)))).
Proof.
  intros H1 H2 H3. cbn [reloadFluentdConfig_range]. unfold http_NewRequest. rewrite H1.
  fold (GET ip). rewrite H2.
  apply Z.leb_le in H3. cbn. rewrite H3. cbn. by rewrite app_nil_r.
Qed.

Lemma range_body_error d k ip rest resp err :
  url_Parse env (reload_url ip) = None ->
  client_Do env k (GET ip) = Ok resp ->
  StatusCode resp < 400 ->
  Body resp = Err err ->
  reloadFluentdConfig_range env d k (ip :: rest) =
    ([EvLog (LogReloading ip); EvHttpDo (5 * Second) (GET ip); EvReadBody k]
       ++ (EvBodyClose <$> k :: d),
     Returns (Some (Errorf_w "failed to read response body: %w" err))).
Proof.
  intros H1 H2 H3 H4. cbn [reloadFluentdConfig_range]. unfold http_NewRequest. rewrite H1.
  fold (GET ip). rewrite H2.
  apply Z.leb_gt in H3. cbn. rewrite H3, H4. cbn. by rewrite app_nil_r.
Qed.

Lemma range_next d k ip rest resp b :
  url_Parse env (reload_url ip) = None ->
  client_Do env k (GET ip) = Ok resp ->
  StatusCode resp < 400 ->
  Body resp = Ok b ->
  reloadFluentdConfig_range env d k (ip :: rest) =
    ([EvLog (LogReloading ip); EvHttpDo (5 * Second) (GET ip); EvReadBody k;
      EvLog (LogResponse b)]
       ++ trace (reloadFluentdConfig_range env (k :: d) (S k) rest),
     ending (reloadFluentdConfig_range env (k :: d) (S k) rest)).
Proof.
  intros H1 H2 H3 H4. cbn [reloadFluentdConfig_range]. unfold http_NewRequest. rewrite H1.
  fold (GET ip). rewrite H2.
  apply Z.leb_gt in H3. cbn. rewrite H3, H4. cbn.
  by destruct (reloadFluentdConfig_range env (k :: d) (S k) rest).
Qed.

End Reload.

Section Fanout.

Context (env : Env).

(** What can happen to the request for one address. *)
Lemma request_cases (k : nat) (ip : string) :
  (∃ err, url_Parse env (reload_url ip) = Some err) ∨
  (url_Parse env (reload_url ip) = None ∧ ∃ err, client_Do env k (GET ip) = Err err) ∨
  (url_Parse env (reload_url ip) = None ∧
     ∃ resp, client_Do env k (GET ip) = Ok resp ∧ 400 ≤ StatusCode resp) ∨
  (url_Parse env (reload_url ip) = None ∧
     ∃ resp err, client_Do env k (GET ip) = Ok resp ∧ StatusCode resp < 400 ∧
                 Body resp = Err err) ∨
  reload_succeeds env k ip.
Proof.
  unfold reload_succeeds.
  destruct (url_Parse env (reload_url ip)) as [err|]; [eauto|].
  destruct (client_Do env k (GET ip)) as [resp|err]; [|eauto 6].
  destruct (Z_lt_le_dec (StatusCode resp) 400); [|eauto 8].
  destruct (Body resp) as [b|err] eqn:Hb; [|eauto 10].
  do 4 right. eauto 10.
Qed.

(** The loop never panics and only returns the errors of its four
    [return] statements. *)
Lemma range_returns d k ips :
  ∃ e, ending (reloadFluentdConfig_range env d k ips) = Returns e ∧
       (∀ err, e = Some err -> ReloadError err).
Proof.
  revert d k. induction ips as [|ip rest IH]; intros d k.
  - rewrite range_nil. eexists. split; [done|]. discriminate.
  - destruct (request_cases k ip)
      as [(err & H)|[(H & err & H2)|[(H & resp & H2 & H3)|
         [(H & resp & err & H2 & H3 & H4)|(H & resp & b & H2 & H3 & H4)]]]].
    + erewrite range_parse_error by done. eexists. split; [done|].
      intros ? [= <-]. constructor.
    + erewrite range_transport_error by done. eexists. split; [done|].
      intros ? [= <-]. constructor.
    + erewrite range_bad_status by done. eexists. split; [done|].
      intros ? [= <-]. constructor.
    + erewrite range_body_error by done. eexists. split; [done|].
      intros ? [= <-]. constructor.
    + erewrite range_next by done. apply IH.
Qed.

(** When every request goes through, each address gets its request, in
    list order, and the loop returns nil. *)
Lemma range_all_succeed d k ips :
  (∀ i ip, ips !! i = Some ip -> reload_succeeds env (k + i) ip) ->
  ending (reloadFluentdConfig_range env d k ips) = Returns None ∧
  http_requests (trace (reloadFluentdConfig_range env d k ips)) = GET <$> ips.
Proof.
  revert d k. induction ips as [|ip rest IH]; intros d k Hall.
  - rewrite range_nil. split; [done|]. cbn. by induction d.
  - destruct (Hall 0%nat ip eq_refl) as (H & resp & b & H2 & H3 & H4).
    rewrite Nat.add_0_r in H2.
    erewrite range_next by done.
    destruct (IH (k :: d) (S k)) as [IH1 IH2].
    { intros i ip' Hi. replace (S k + i)%nat with (k + S i)%nat by lia. by apply Hall. }
    split; [done|]. unfold trace at 1. cbn [fst].
    rewrite http_requests_app, IH2. reflexivity.
Qed.

(** The converse: a nil result means that every request went through. *)
Lemma range_nil_result d k ips :
  ending (reloadFluentdConfig_range env d k ips) = Returns None ->
  ∀ i ip, ips !! i = Some ip -> reload_succeeds env (k + i) ip.
Proof.
  revert d k. induction ips as [|ip rest IH]; intros d k Hend i ip' Hi; [done|].
  destruct (request_cases k ip)
    as [(err & H)|[(H & err & H2)|[(H & resp & H2 & H3)|
       [(H & resp & err & H2 & H3 & H4)|Hok]]]].
  - by erewrite range_parse_error in Hend by done.
  - by erewrite range_transport_error in Hend by done.
  - by erewrite range_bad_status in Hend by done.
  - by erewrite range_body_error in Hend by done.
  - destruct i as [|i]; cbn in Hi; simplify_eq.
    + by rewrite Nat.add_0_r.
    + destruct Hok as (H & resp & b & H2 & H3 & H4).
      erewrite range_next in Hend by done.
      replace (k + S i)%nat with (S k + i)%nat by lia. eapply IH; eauto.
Qed.


(** Whatever happens, the requests sent are those of a prefix of the
    address list: no address is asked twice, none is skipped. *)
Lemma range_requests_prefix d k ips :
  ∃ n, http_requests (trace (reloadFluentdConfig_range env d k ips)) = GET <$> take n ips.
Proof.
  assert (∀ d', http_requests (EvBodyClose <$> d') = []) as Hclose
    by (intros d'; by induction d').
  revert d k. induction ips as [|ip rest IH]; intros d k.
  - exists 0%nat. rewrite range_nil. apply Hclose.
  - destruct (request_cases k ip)
      as [(err & H)|[(H & err & H2)|[(H & resp & H2 & H3)|
         [(H & resp & err & H2 & H3 & H4)|(H & resp & b & H2 & H3 & H4)]]]].
    + exists 0%nat. erewrite range_parse_error by done. cbn. apply Hclose.
    + exists 1%nat. erewrite range_transport_error by done.
      unfold trace. cbn [fst]. rewrite http_requests_app, Hclose. cbn. by rewrite take_0.
    + exists 1%nat. erewrite range_bad_status by done.
      unfold trace. cbn [fst]. rewrite http_requests_app, Hclose. cbn. by rewrite take_0.
    + exists 1%nat. erewrite range_body_error by done.
      unfold trace. cbn [fst]. rewrite http_requests_app, Hclose. cbn. by rewrite take_0.
    + destruct (IH (k :: d) (S k)) as [n Hn]. exists (S n).
      erewrite range_next by done.
      unfold trace at 1. cbn [fst]. rewrite http_requests_app, Hn. reflexivity.
Qed.

(** Every request the loop sends is the reload request of one of the
    addresses, through a client whose timeout is five seconds. *)
Lemma range_request_shape d k ips timeout req :
  EvHttpDo timeout req ∈ trace (reloadFluentdConfig_range env d k ips) ->
  timeout = 5 * Second ∧ ∃ ip, ip ∈ ips ∧ req = GET ip.
Proof.
  revert d k. induction ips as [|ip rest IH]; intros d k.
  - rewrite range_nil. cbn. intros (x & ? & _)%list_elem_of_fmap. discriminate.
  - assert (∀ d', EvHttpDo timeout req ∈ EvBodyClose <$> d' -> False) as Hclose
      by (intros d' (x & ? & _)%list_elem_of_fmap; discriminate).
    destruct (request_cases k ip)
      as [(err & H)|[(H & err & H2)|[(H & resp & H2 & H3)|
         [(H & resp & err & H2 & H3 & H4)|(H & resp & b & H2 & H3 & H4)]]]].
    + erewrite range_parse_error by done. cbn.
      intros [?|?%Hclose]%elem_of_cons; [discriminate|done].
    + erewrite range_transport_error by done. cbn.
      rewrite !elem_of_cons. intros [?|[?|?%Hclose]]; [discriminate| |done].
      simplify_eq. split; [done|]. exists ip. split; [left|done].
    + erewrite range_bad_status by done. unfold trace. cbn [fst].
      rewrite elem_of_app, !elem_of_cons. intros [[?|[?|?%elem_of_nil]]|?%Hclose]; try done.
      simplify_eq. split; [done|]. exists ip. split; [left|done].
    + erewrite range_body_error by done. unfold trace. cbn [fst].
      rewrite elem_of_app, !elem_of_cons.
      intros [[?|[?|[?|?%elem_of_nil]]]|?%Hclose]; try done.
      simplify_eq. split; [done|]. exists ip. split; [left|done].
    + erewrite range_next by done. unfold trace at 1. cbn [fst].
      rewrite elem_of_app, !elem_of_cons.
      intros [[?|[?|[?|[?|?%elem_of_nil]]]]|Hin]; try done.
      * simplify_eq. split; [done|]. exists ip. split; [left|done].
      * destruct (IH _ _ Hin) as (? & ip' & ? & ?).
        split; [done|]. exists ip'. split; [by right|done].
Qed.

End Fanout.

(** ** Stages of a run *)

Lemma in_stage_app s t1 t2 : in_stage s t1 -> in_stage s t2 -> in_stage s (t1 ++ t2).
Proof. apply Forall_app_2. Qed.

Lemma in_stage_stops_at s s' t :
  in_stage s t -> (stage_rank s <= stage_rank s')%nat -> stops_at s' t.
Proof. unfold in_stage, stops_at. intros H Hle. eapply Forall_impl; [done|]. intros e ->. done. Qed.

Lemma stops_at_app s t1 t2 : stops_at s t1 -> stops_at s t2 -> stops_at s (t1 ++ t2).
Proof. apply Forall_app_2. Qed.

Lemma stops_at_mono s s' t :
  stops_at s t -> (stage_rank s <= stage_rank s')%nat -> stops_at s' t.
Proof. unfold stops_at. intros H Hle. eapply Forall_impl; [done|]. simpl. lia. Qed.

Lemma in_stage_no_requests s t : in_stage s t -> s ≠ Reloading -> http_requests t = [].
Proof.
  intros H Hs. induction H as [|e t He _ IH]; [done|].
  destruct e; cbn; try done; by subst.
Qed.

Lemma in_stage_no_calls s s' t : in_stage s t -> s ≠ s' -> count_calls s' t = 0%nat.
Proof.
  unfold count_calls. intros H Hs. induction H as [|e t He _ IH]; [done|].
  cbn. destruct (is_stage_call s' e) eqn:Hc; [|done].
  exfalso. apply Hs. rewrite <- He. by destruct s', e.
Qed.

Lemma count_calls_app s t1 t2 :
  count_calls s (t1 ++ t2) = (count_calls s t1 + count_calls s t2)%nat.
Proof. unfold count_calls. by rewrite List.filter_app, length_app. Qed.

(** A trace made of a segment of one stage followed by a sorted trace of
    that stage and later ones is sorted. *)
Lemma sorted_segment s t1 t2 :
  in_stage s t1 ->
  Sorted stage_le t2 ->
  Forall (λ e, (stage_rank s <= stage_rank (stage_of e))%nat) t2 ->
  Sorted stage_le (t1 ++ t2).
Proof.
  intros H1 H2 H3. induction H1 as [|e t He Ht IH]; [done|].
  cbn. constructor; [done|].
  destruct Ht as [|e' t' He' _]; cbn.
  - destruct H3 as [|e2 t2' ? ?]; constructor. unfold stage_le. by rewrite He.
  - constructor. unfold stage_le. rewrite He, He'. done.
Qed.

Lemma in_stage_sorted s t : in_stage s t -> Sorted stage_le t.
Proof.
  intros H. rewrite <- (app_nil_r t). eapply sorted_segment; eauto.
Qed.

Lemma in_stage_from s s' t :
  in_stage s' t -> (stage_rank s <= stage_rank s')%nat ->
  Forall (λ e, (stage_rank s <= stage_rank (stage_of e))%nat) t.
Proof. intros H Hle. eapply Forall_impl; [done|]. by intros e ->. Qed.

Section Stages.

Context (env : Env).

Lemma getConfig_in_stage : in_stage Configuring (trace (getConfig env)).
Proof.
  unfold getConfig, LookupEnv.
  destruct (os_LookupEnv env "FLUENTD_SERVICE_URL");
    destruct (os_LookupEnv env "FLUENTD_CERT_NAME");
    destruct (os_LookupEnv env "FLUENTD_NAMESPACE"); cbn; by repeat constructor.
Qed.

Lemma getFluentdIPs_in_stage a : in_stage Discovering (trace (getFluentdIPs env a)).
Proof.
  destruct (Pods_List env (namespace a) (pods_selector a)) as [pods|err] eqn:H.
  - rewrite (getFluentdIPs_listed _ _ _ H). cbn. constructor; [done|].
    apply Forall_fmap, Forall_forall. done.
  - rewrite (getFluentdIPs_failed _ _ _ H). by repeat constructor.
Qed.

Lemma getFluentdIPs_one_call a :
  count_calls Discovering (trace (getFluentdIPs env a)) = 1%nat.
Proof.
  assert (∀ l : list Pod,
    count_calls Discovering (EvLog ∘ LogPodSkipped ∘ Pod_Name <$> l) = 0%nat) as Hlogs
    by (intros l; by induction l).
  destruct (Pods_List env (namespace a) (pods_selector a)) as [pods|err] eqn:H.
  - rewrite (getFluentdIPs_listed _ _ _ H). cbn.
    change (S (count_calls Discovering
      (EvLog ∘ LogPodSkipped ∘ Pod_Name <$> filter (λ p, ¬ has_statefulset_label p) pods))
      = 1%nat).
    by rewrite Hlogs.
  - by rewrite (getFluentdIPs_failed _ _ _ H).
Qed.

Lemma checkCert_in_stage serviceURL : in_stage Probing (trace (checkCert env serviceURL)).
Proof.
  unfold checkCert, tls_Dial.
  destruct (net_Dial env "tcp" (serviceURL +:+ ":443")); [cbn; by repeat constructor|].
  destruct (tls_Handshake env (serviceURL +:+ ":443")) as [conn|err];
    [|cbn; by repeat constructor].
  cbn. destruct (VerifyHostname conn serviceURL); [cbn; by repeat constructor|].
  destruct (PeerCertificates conn); cbn; by repeat constructor.
Qed.

Lemma checkCert_one_call serviceURL :
  count_calls Probing (trace (checkCert env serviceURL)) = 1%nat.
Proof.
  unfold checkCert, tls_Dial.
  destruct (net_Dial env "tcp" (serviceURL +:+ ":443")); [done|].
  destruct (tls_Handshake env (serviceURL +:+ ":443")) as [conn|err]; [|done].
  cbn. destruct (VerifyHostname conn serviceURL); [done|].
  by destruct (PeerCertificates conn).
Qed.

Lemma getCRD_in_stage a : in_stage LookingUp (trace (getCRD env a)).
Proof.
  destruct (Certificates_Get env (certificates_uri a)) as [items|err] eqn:H.
  - rewrite (getCRD_listed _ _ _ H). cbn. constructor; [done|].
    rewrite getCRD_range_trace. apply Forall_fmap, Forall_forall. done.
  - rewrite (getCRD_failed _ _ _ H). by repeat constructor.
Qed.

Lemma getCRD_one_call a : count_calls LookingUp (trace (getCRD env a)) = 1%nat.
Proof.
  assert (∀ l : list Certificate,
    count_calls LookingUp (EvLog ∘ LogNotFluentdCert ∘ Name <$> l) = 0%nat) as Hlogs
    by (intros l; by induction l).
  destruct (Certificates_Get env (certificates_uri a)) as [items|err] eqn:H.
  - rewrite (getCRD_listed _ _ _ H). cbn. rewrite getCRD_range_trace.
    change (S (count_calls LookingUp
      (EvLog ∘ LogNotFluentdCert ∘ Name <$> passed_over env (certName a) items)) = 1%nat).
    by rewrite Hlogs.
  - by rewrite (getCRD_failed _ _ _ H).
Qed.

Lemma reloadFluentdConfig_range_in_stage d k ips :
  in_stage Reloading (trace (reloadFluentdConfig_range env d k ips)).
Proof.
  assert (∀ d', in_stage Reloading (EvBodyClose <$> d')) as Hclose
    by (intros d'; apply Forall_fmap, Forall_forall; done).
  revert d k. induction ips as [|ip rest IH]; intros d k.
  - rewrite range_nil. apply Hclose.
  - destruct (request_cases env k ip)
      as [(err & H)|[(H & err & H2)|[(H & resp & H2 & H3)|
         [(H & resp & err & H2 & H3 & H4)|(H & resp & b & H2 & H3 & H4)]]]].
    + erewrite range_parse_error by done. constructor; [done|apply Hclose].
    + erewrite range_transport_error by done.
      apply in_stage_app; [by repeat constructor|apply Hclose].
    + erewrite range_bad_status by done.
      apply in_stage_app; [by repeat constructor|apply Hclose].
    + erewrite range_body_error by done.
      apply in_stage_app; [by repeat constructor|apply Hclose].
    + erewrite range_next by done.
      apply in_stage_app; [by repeat constructor|apply IH].
Qed.

End Stages.

(** ** The run *)

Lemma bind_trace {A B} (m : Proc A) (f : A -> Proc B) :
  trace (m ≫= f) =
    trace m ++ match ending m with Returns a => trace (f a) | Panics _ => [] end.
Proof.
  destruct m as [t [a|p]]; proc_unfold; cbn.
  - by destruct (f a).
  - by rewrite app_nil_r.
Qed.

Lemma bind_ending {A B} (m : Proc A) (f : A -> Proc B) :
  ending (m ≫= f) =
    match ending m with Returns a => ending (f a) | Panics p => Panics p end.
Proof.
  destruct m as [t [a|p]]; proc_unfold; cbn; [|done]. by destruct (f a).
Qed.

Lemma trace_call {A} e (x : A) : trace (call e x) = [e].
Proof. reflexivity. Qed.

Lemma ending_call {A} e (x : A) : ending (call e x) = Returns x.
Proof. reflexivity. Qed.

Ltac run_main :=
  unfold main;
  repeat first
    [ rewrite bind_trace | rewrite bind_ending
    | rewrite trace_call | rewrite ending_call
    | match goal with
      | H : rest_InClusterConfig _ = _ |- _ => rewrite H
      | H : kubernetes_NewForConfig _ = _ |- _ => rewrite H
      | H : ending _ = _ |- _ => rewrite H
      end
    | progress cbn iota beta ].

Section MainRun.

Context (env : Env).

Lemma main_InClusterConfig_failed err :
  rest_InClusterConfig env = Some err ->
  main env = ([EvInClusterConfig], Panics (PanicError err)).
Proof. intros H. unfold main. by rewrite H. Qed.

Lemma main_NewForConfig_failed err :
  rest_InClusterConfig env = None ->
  kubernetes_NewForConfig env = Some err ->
  main env = ([EvInClusterConfig; EvNewForConfig], Panics (PanicError err)).
Proof. intros H1 H2. unfold main. by rewrite H1, H2. Qed.

Lemma main_getConfig_panicked p :
  client_ready env ->
  ending (getConfig env) = Panics p ->
  trace (main env) = [EvInClusterConfig; EvNewForConfig] ++ trace (getConfig env) ∧
  ending (main env) = Panics p.
Proof.
  intros [H1 H2] H3. split; run_main; [|done]. by rewrite app_nil_r.
Qed.

Lemma main_discovery_failed cfg err :
  client_ready env ->
  ending (getConfig env) = Returns cfg ->
  ending (getFluentdIPs env (app_of cfg)) = Returns (Err err) ->
  trace (main env) =
    [EvInClusterConfig; EvNewForConfig] ++ trace (getConfig env)
      ++ trace (getFluentdIPs env (app_of cfg)) ∧
  ending (main env) = Panics (PanicError err).
Proof.
  intros [H1 H2] H3 H4. unfold app_of in *. split; run_main; [|done].
  by rewrite app_nil_r.
Qed.

Lemma main_probe_ended cfg ips o :
  client_ready env ->
  ending (getConfig env) = Returns cfg ->
  ending (getFluentdIPs env (app_of cfg)) = Returns (Ok ips) ->
  ending (checkCert env (cfg_serviceURL cfg)) = o ->
  (∀ expiry, o ≠ Returns (Ok expiry)) ->
  trace (main env) =
    [EvInClusterConfig; EvNewForConfig] ++ trace (getConfig env)
      ++ trace (getFluentdIPs env (app_of cfg))
      ++ trace (checkCert env (cfg_serviceURL cfg)) ∧
  ending (main env) =
    match o with
    | Returns (Err err) => Panics (PanicError err)
    | Returns (Ok _) => Returns tt
    | Panics p => Panics p
    end.
Proof.
  intros [H1 H2] H3 H4 H5 Hno. unfold app_of in *.
  destruct o as [[expiry|err]|p]; [by destruct (Hno expiry)| |];
    (split; run_main; [|done]); by rewrite app_nil_r.
Qed.

Lemma main_lookup_failed cfg ips expiry err :
  client_ready env ->
  ending (getConfig env) = Returns cfg ->
  ending (getFluentdIPs env (app_of cfg)) = Returns (Ok ips) ->
  ending (checkCert env (cfg_serviceURL cfg)) = Returns (Ok expiry) ->
  ending (getCRD env (app_of cfg)) = Returns (Err err) ->
  trace (main env) = prologue env cfg ∧
  ending (main env) = Panics (PanicError err).
Proof.
  intros [H1 H2] H3 H4 H5 H6. unfold prologue, app_of in *.
  split; run_main; [|done]. by rewrite app_nil_r.
Qed.

Lemma main_reconciling cfg ips expiry cert :
  client_ready env ->
  ending (getConfig env) = Returns cfg ->
  ending (getFluentdIPs env (app_of cfg)) = Returns (Ok ips) ->
  ending (checkCert env (cfg_serviceURL cfg)) = Returns (Ok expiry) ->
  ending (getCRD env (app_of cfg)) = Returns (Ok cert) ->
  trace (main env) = prologue env cfg ++ trace (main_reconcile env ips expiry cert) ∧
  ending (main env) = ending (main_reconcile env ips expiry cert).
Proof.
  intros [H1 H2] H3 H4 H5 H6. unfold prologue, app_of in *.
  split; run_main; [|done]. by rewrite <- !app_assoc.
Qed.

End MainRun.

Lemma staged_sorted t : staged t -> Sorted stage_le t.
Proof.
  intros (t0 & t1 & t2 & t3 & t4 & t5 & t6 & -> & H0 & H1 & H2 & H3 & H4 & H5 & H6 & _).
  repeat (eapply sorted_segment; [eassumption| |
    repeat (apply Forall_app_2; [eapply in_stage_from; [eassumption|cbn; lia]|]);
    eapply in_stage_from; [eassumption|cbn; lia] ]).
  by eapply in_stage_sorted.
Qed.

Lemma staged_calls_once t s : staged t -> (count_calls s t <= 1)%nat.
Proof.
  intros (t0 & t1 & t2 & t3 & t4 & t5 & t6 & -> & H0 & H1 & H2 & H3 & H4 & H5 & H6
            & C2 & C3 & C4).
  rewrite !count_calls_app.
  destruct s;
    repeat match goal with
    | H : in_stage ?s' ?t |- context [count_calls ?s ?t] =>
        rewrite (in_stage_no_calls s' s t H) by discriminate
    end; try lia.
  - assert (count_calls ClientSetup t0 = 0%nat) as ->; [|lia].
    unfold count_calls. clear. by induction t0.
  - assert (count_calls Configuring t1 = 0%nat) as ->; [|lia].
    unfold count_calls. clear. by induction t1.
  - assert (count_calls Comparing t5 = 0%nat) as ->; [|lia].
    unfold count_calls. clear. by induction t5.
  - assert (count_calls Reloading t6 = 0%nat) as ->; [|lia].
    unfold count_calls. clear. by induction t6.
Qed.

Section Reconcile.

Context (env : Env).

Lemma main_reconcile_equal ips expiry cert :
  expiries_equal cert expiry = true ->
  main_reconcile env ips expiry cert =
    ([EvLog (LogWillExpire expiry); EvLog (LogWillRenew (RenewalTime (Status cert)));
      EvLog LogValid],
     Returns tt).
Proof. unfold expiries_equal, main_reconcile. by intros ->. Qed.

Lemma main_reconcile_differ ips expiry cert :
  expiries_equal cert expiry = false ->
  main_reconcile env ips expiry cert =
    ([EvLog (LogWillExpire expiry); EvLog LogNotValid;
      EvLog (LogShouldExpire (NotAfter (Status cert)) expiry)]
       ++ trace (reloadFluentdConfig env ips),
     after_reload (ending (reloadFluentdConfig env ips))).
Proof.
  unfold expiries_equal, main_reconcile. intros ->.
  destruct (reloadFluentdConfig env ips) as [t [[err|]|p]]; proc_unfold; cbn;
    by rewrite ?app_nil_r.
Qed.

Lemma prologue_no_requests cfg : http_requests (prologue env cfg) = [].
Proof.
  unfold prologue. rewrite !http_requests_app.
  rewrite (in_stage_no_requests _ _ (getConfig_in_stage env)) by done.
  rewrite (in_stage_no_requests _ _ (getFluentdIPs_in_stage env _)) by done.
  rewrite (in_stage_no_requests _ _ (checkCert_in_stage env _)) by done.
  by rewrite (in_stage_no_requests _ _ (getCRD_in_stage env _)) by done.
Qed.

Lemma prologue_stops_at cfg : stops_at LookingUp (prologue env cfg).
Proof.
  unfold prologue. repeat apply stops_at_app.
  - by repeat constructor.
  - eapply in_stage_stops_at; [apply getConfig_in_stage|cbn; lia].
  - eapply in_stage_stops_at; [apply getFluentdIPs_in_stage|cbn; lia].
  - eapply in_stage_stops_at; [apply checkCert_in_stage|cbn; lia].
  - eapply in_stage_stops_at; [apply getCRD_in_stage|cbn; lia].
Qed.

End Reconcile.

Section MainStaged.

Context (env : Env).

Ltac segments t0 t1 t2 t3 t4 t5 t6 :=
  repeat match goal with
  | |- context [trace (?a, ?b)] => change (trace (a, b)) with a
  end;
  exists t0, t1, t2, t3, t4, t5, t6;
  split; [by rewrite ?app_nil_r, <- ?app_assoc|];
  repeat split;
  first [ done
        | by repeat constructor
        | apply getConfig_in_stage | apply getFluentdIPs_in_stage
        | apply checkCert_in_stage | apply getCRD_in_stage
        | apply reloadFluentdConfig_range_in_stage
        | by rewrite getFluentdIPs_one_call
        | by rewrite checkCert_one_call
        | by rewrite getCRD_one_call
        | cbn; lia ].

(** Whatever the world answers, the run goes through its stages in the
    order of the program text and stops in one of them. *)
Lemma main_staged : staged (trace (main env)).
Proof.
  destruct (rest_InClusterConfig env) as [err|] eqn:H1.
  { rewrite (main_InClusterConfig_failed _ _ H1).
    segments [EvInClusterConfig] (@nil Event) (@nil Event) (@nil Event)
      (@nil Event) (@nil Event) (@nil Event). }
  destruct (kubernetes_NewForConfig env) as [err|] eqn:H2.
  { rewrite (main_NewForConfig_failed _ _ H1 H2).
    segments [EvInClusterConfig; EvNewForConfig] (@nil Event) (@nil Event) (@nil Event)
      (@nil Event) (@nil Event) (@nil Event). }
  assert (client_ready env) as Hready by done.
  destruct (ending (getConfig env)) as [cfg|p] eqn:H3.
  2:{ destruct (main_getConfig_panicked _ _ Hready H3) as [-> _].
      segments [EvInClusterConfig; EvNewForConfig] (trace (getConfig env))
        (@nil Event) (@nil Event) (@nil Event) (@nil Event) (@nil Event). }
  destruct (ending (getFluentdIPs env (app_of cfg))) as [[ips|err]|p] eqn:H4.
  2:{ destruct (main_discovery_failed _ _ _ Hready H3 H4) as [-> _].
      segments [EvInClusterConfig; EvNewForConfig] (trace (getConfig env))
        (trace (getFluentdIPs env (app_of cfg)))
        (@nil Event) (@nil Event) (@nil Event) (@nil Event). }
  2:{ exfalso. revert H4.
      destruct (Pods_List env (namespace (app_of cfg)) (pods_selector (app_of cfg))) eqn:H.
      - by rewrite (getFluentdIPs_listed _ _ _ H).
      - by rewrite (getFluentdIPs_failed _ _ _ H). }
  destruct (ending (checkCert env (cfg_serviceURL cfg))) as [[expiry|err]|p] eqn:H5.
  2,3: (destruct (main_probe_ended env cfg ips _ Hready H3 H4 H5) as [-> _];
        [intros ?; discriminate|];
        segments [EvInClusterConfig; EvNewForConfig] (trace (getConfig env))
          (trace (getFluentdIPs env (app_of cfg)))
          (trace (checkCert env (cfg_serviceURL cfg)))
          (@nil Event) (@nil Event) (@nil Event)).
  destruct (ending (getCRD env (app_of cfg))) as [[cert|err]|p] eqn:H6.
  2:{ destruct (main_lookup_failed _ _ _ _ _ Hready H3 H4 H5 H6) as [-> _].
      unfold prologue.
      segments [EvInClusterConfig; EvNewForConfig] (trace (getConfig env))
        (trace (getFluentdIPs env (app_of cfg)))
        (trace (checkCert env (cfg_serviceURL cfg)))
        (trace (getCRD env (app_of cfg))) (@nil Event) (@nil Event). }
  2:{ exfalso. revert H6.
      destruct (Certificates_Get env (certificates_uri (app_of cfg))) eqn:H.
      - rewrite (getCRD_listed _ _ _ H). cbn. rewrite getCRD_range_find.
        by destruct (List.find _ _).
      - by rewrite (getCRD_failed _ _ _ H). }
  destruct (main_reconciling _ _ _ _ _ Hready H3 H4 H5 H6) as [-> _].
  unfold prologue.
  destruct (expiries_equal cert expiry) eqn:Heq.
  - rewrite (main_reconcile_equal _ _ _ _ Heq).
    segments [EvInClusterConfig; EvNewForConfig] (trace (getConfig env))
      (trace (getFluentdIPs env (app_of cfg)))
      (trace (checkCert env (cfg_serviceURL cfg)))
      (trace (getCRD env (app_of cfg)))
      [EvLog (LogWillExpire expiry); EvLog (LogWillRenew (RenewalTime (Status cert)));
       EvLog LogValid]
      (@nil Event).
  - rewrite (main_reconcile_differ _ _ _ _ Heq).
    segments [EvInClusterConfig; EvNewForConfig] (trace (getConfig env))
      (trace (getFluentdIPs env (app_of cfg)))
      (trace (checkCert env (cfg_serviceURL cfg)))
      (trace (getCRD env (app_of cfg)))
      [EvLog (LogWillExpire expiry); EvLog LogNotValid;
       EvLog (LogShouldExpire (NotAfter (Status cert)) expiry)]
      (trace (reloadFluentdConfig env ips)).
Qed.

End MainStaged.

(** ** Live probe *)

Section Probe.

Context (env : Env).

Lemma checkCert_dial_failed serviceURL err :
  net_Dial env "tcp" (serviceURL +:+ ":443") = Some err ->
  checkCert env serviceURL =
    ([EvTlsDial "tcp" (serviceURL +:+ ":443")],
     Returns (Err (Errorf_w "Server doesn't support SSL certificate err: %w" err))).
Proof. intros H. unfold checkCert, tls_Dial. by rewrite H. Qed.

Lemma checkCert_handshake_failed serviceURL err :
  net_Dial env "tcp" (serviceURL +:+ ":443") = None ->
  tls_Handshake env (serviceURL +:+ ":443") = Err err ->
  checkCert env serviceURL =
    ([EvTlsDial "tcp" (serviceURL +:+ ":443")],
     Returns (Err (Errorf_w "Server doesn't support SSL certificate err: %w" err))).
Proof. intros H1 H2. unfold checkCert, tls_Dial. by rewrite H1, H2. Qed.

Lemma checkCert_hostname_mismatch serviceURL conn err :
  net_Dial env "tcp" (serviceURL +:+ ":443") = None ->
  tls_Handshake env (serviceURL +:+ ":443") = Ok conn ->
  VerifyHostname conn serviceURL = Some err ->
  checkCert env serviceURL =
    ([EvTlsDial "tcp" (serviceURL +:+ ":443"); EvVerifyHostname serviceURL],
     Returns (Err (Errorf_w "Hostname doesn't match with certificate: %w" err))).
Proof. intros H1 H2 H3. unfold checkCert, tls_Dial. rewrite H1, H2. cbn. by rewrite H3. Qed.

Lemma checkCert_leaf serviceURL conn leaf chain :
  net_Dial env "tcp" (serviceURL +:+ ":443") = None ->
  tls_Handshake env (serviceURL +:+ ":443") = Ok conn ->
  VerifyHostname conn serviceURL = None ->
  PeerCertificates conn = leaf :: chain ->
  checkCert env serviceURL =
    ([EvTlsDial "tcp" (serviceURL +:+ ":443"); EvVerifyHostname serviceURL;
      EvLog (LogIssuerExpiry (Issuer leaf) (x509_NotAfter leaf))],
     Returns (Ok (x509_NotAfter leaf))).
Proof.
  intros H1 H2 H3 H4. unfold checkCert, tls_Dial. rewrite H1, H2. cbn. by rewrite H3, H4.
Qed.

(** A connection without any peer certificate makes [PeerCertificates[0]]
    panic. *)
Lemma checkCert_no_peer_certificate serviceURL conn :
  net_Dial env "tcp" (serviceURL +:+ ":443") = None ->
  tls_Handshake env (serviceURL +:+ ":443") = Ok conn ->
  VerifyHostname conn serviceURL = None ->
  PeerCertificates conn = [] ->
  checkCert env serviceURL =
    ([EvTlsDial "tcp" (serviceURL +:+ ":443"); EvVerifyHostname serviceURL],
     Panics (PanicIndexOutOfRange 0 0)).
Proof.
  intros H1 H2 H3 H4. unfold checkCert, tls_Dial. rewrite H1, H2. cbn. by rewrite H3, H4.
Qed.

End Probe.

(** C7. The probe dials port 443 of the configured host over TLS.  It
    returns an error exactly when the connection cannot be established,
    the handshake fails, or the host name does not match the certificate;
    when it returns a time, that is the not-after of the first peer
    certificate, and it does return it whenever none of the three failures
    occurs and the peer presented a certificate. *)
Theorem checkCert_probe (env : Env) (serviceURL : string) :
  (∃ t, trace (checkCert env serviceURL) = EvTlsDial "tcp" (serviceURL +:+ ":443") :: t) ∧
  ((∃ err, ending (checkCert env serviceURL) = Returns (Err err)) <->
     probe_fails env serviceURL) ∧
  (∀ err, ending (checkCert env serviceURL) = Returns (Err err) -> ProbeError err) ∧
  (∀ expiry, ending (checkCert env serviceURL) = Returns (Ok expiry) ->
     ∃ conn leaf, tls_Handshake env (serviceURL +:+ ":443") = Ok conn ∧
                  PeerCertificates conn !! 0%nat = Some leaf ∧
                  expiry = x509_NotAfter leaf) ∧
  (∀ conn leaf, ¬ probe_fails env serviceURL ->
     tls_Handshake env (serviceURL +:+ ":443") = Ok conn ->
     PeerCertificates conn !! 0%nat = Some leaf ->
     ending (checkCert env serviceURL) = Returns (Ok (x509_NotAfter leaf))).
Proof.
  unfold probe_fails.
  destruct (net_Dial env "tcp" (serviceURL +:+ ":443")) as [e1|] eqn:H1.
  { rewrite (checkCert_dial_failed _ _ _ H1). cbn.
    split; [eauto|]. split; [split; eauto|]. split; [intros ? [= <-]; constructor|].
    split; [discriminate|]. intros conn leaf Hno. destruct Hno. eauto. }
  destruct (tls_Handshake env (serviceURL +:+ ":443")) as [conn|e2] eqn:H2.
  2:{ rewrite (checkCert_handshake_failed _ _ _ H1 H2). cbn.
      split; [eauto|]. split; [split; eauto 6|]. split; [intros ? [= <-]; constructor|].
      split; discriminate. }
  destruct (VerifyHostname conn serviceURL) as [e3|] eqn:H3.
  { rewrite (checkCert_hostname_mismatch _ _ _ _ H1 H2 H3). cbn.
    split; [eauto|]. split; [split; eauto 8|]. split; [intros ? [= <-]; constructor|].
    split; [discriminate|]. intros conn' leaf Hno. destruct Hno. eauto 8. }
  destruct (PeerCertificates conn) as [|leaf chain] eqn:H4.
  - rewrite (checkCert_no_peer_certificate _ _ _ H1 H2 H3 H4). cbn.
    split; [eauto|]. split.
    { split; [intros [? ?]; discriminate|].
      intros [(? & ?)|[(? & ? & ?)|(? & c & ? & ? & ?)]]; simplify_eq. }
    split; [discriminate|]. split; [discriminate|].
    intros conn' leaf _ [= <-]. by rewrite H4.
  - rewrite (checkCert_leaf _ _ _ _ _ H1 H2 H3 H4). cbn.
    split; [eauto|]. split.
    { split; [intros [? ?]; discriminate|].
      intros [(? & ?)|[(? & ? & ?)|(? & c & ? & ? & ?)]]; simplify_eq. }
    split; [discriminate|]. split.
    + intros expiry [= <-]. exists conn, leaf. by rewrite H4.
    + intros conn' leaf' _ [= <-]. rewrite H4. by intros [= <-].
Qed.

(** The served certificate expires in March: the probe returns March. *)
Lemma checkCert_probe_witness :
  ending (checkCert
            (Scenario.world [] [] Scenario.march (λ _ _, Scenario.ok_200))
            "logging.donchev.is")
  = Returns (Ok Scenario.march).
Proof.
  refine (proj2 (proj2 (proj2 (proj2
            (checkCert_probe
               (Scenario.world [] [] Scenario.march (λ _ _, Scenario.ok_200))
               "logging.donchev.is"))))
            (Scenario.served Scenario.march)
            (mkX509 "CN=R3,O=ISRG,C=US" Scenario.march) _ eq_refl eq_refl).
  unfold probe_fails. cbn.
  intros [(? & ?)|[(? & ? & ?)|(? & c & ? & ? & ?)]]; simplify_eq.
Defined.

(** ** Reconciliation *)

Lemma expiries_equal_spec (cert : Certificate) (expiry : Go.Time) :
  expiries_equal cert expiry = true <->
  ∃ recorded, NotAfter (Status cert) = Some recorded ∧
              sec (metav1.Time_ recorded) = sec expiry ∧
              nsec (metav1.Time_ recorded) = nsec expiry.
Proof.
  unfold expiries_equal, metav1.Equal.
  destruct (NotAfter (Status cert)) as [recorded|].
  - cbn. rewrite Time_Equal_spec. split; [eauto|]. by intros (? & [= <-] & ?).
  - split; [discriminate|]. by intros (? & ? & _).
Qed.

Section Run.

Context (env : Env).

Lemma run_equal ips expiry cert :
  Reconciling env ips expiry cert ->
  expiries_equal cert expiry = true ->
  ∃ cfg,
    trace (main env) =
      prologue env cfg
        ++ [EvLog (LogWillExpire expiry);
            EvLog (LogWillRenew (RenewalTime (Status cert))); EvLog LogValid] ∧
    ending (main env) = Returns tt.
Proof.
  intros (Hready & cfg & H3 & H4 & H5 & H6) Heq. exists cfg.
  destruct (main_reconciling _ _ _ _ _ Hready H3 H4 H5 H6) as [-> ->].
  by rewrite (main_reconcile_equal _ _ _ _ Heq).
Qed.

Lemma run_differ ips expiry cert :
  Reconciling env ips expiry cert ->
  expiries_equal cert expiry = false ->
  ∃ cfg,
    trace (main env) =
      prologue env cfg
        ++ [EvLog (LogWillExpire expiry); EvLog LogNotValid;
            EvLog (LogShouldExpire (NotAfter (Status cert)) expiry)]
        ++ trace (reloadFluentdConfig env ips) ∧
    ending (main env) = after_reload (ending (reloadFluentdConfig env ips)).
Proof.
  intros (Hready & cfg & H3 & H4 & H5 & H6) Heq. exists cfg.
  destruct (main_reconciling _ _ _ _ _ Hready H3 H4 H5 H6) as [-> ->].
  by rewrite (main_reconcile_differ _ _ _ _ Heq).
Qed.

Lemma run_differ_requests ips expiry cert :
  Reconciling env ips expiry cert ->
  expiries_equal cert expiry = false ->
  http_requests (trace (main env)) = http_requests (trace (reloadFluentdConfig env ips)).
Proof.
  intros HR Heq. destruct (run_differ _ _ _ HR Heq) as (cfg & -> & _).
  by rewrite !http_requests_app, prologue_no_requests.
Qed.

Lemma run_equal_requests ips expiry cert :
  Reconciling env ips expiry cert ->
  expiries_equal cert expiry = true ->
  http_requests (trace (main env)) = [].
Proof.
  intros HR Heq. destruct (run_equal _ _ _ HR Heq) as (cfg & -> & _).
  by rewrite !http_requests_app, prologue_no_requests.
Qed.

End Run.

(** What the run does once the comparison has failed. *)
Lemma reload_differ_path (env : Env) (ips : list string) (expiry : Go.Time)
    (cert : Certificate) :
  Reconciling env ips expiry cert ->
  expiries_equal cert expiry = false ->
  EvLog LogNotValid ∈ trace (main env) ∧
  http_requests (trace (main env)) = http_requests (trace (reloadFluentdConfig env ips)) ∧
  ending (main env) = after_reload (ending (reloadFluentdConfig env ips)).
Proof.
  intros HR Hne. split; [|split; [by eapply run_differ_requests|]].
  - destruct (run_differ _ _ _ _ HR Hne) as (cfg & -> & _).
    apply elem_of_app. right. apply elem_of_app. left. rewrite !elem_of_cons. auto.
  - by destruct (run_differ _ _ _ _ HR Hne) as (cfg & _ & ->).
Qed.

(** C1. Once discovery, probe and lookup have returned, the reload fan-out
    runs if and only if the live expiry is not equal to the recorded
    [Status.NotAfter]: when the two are equal the run sends no request and
    returns; when they are not, the run continues with
    [reloadFluentdConfig] over the discovered addresses, and its requests
    are those of the fan-out.  The two are equal exactly when there is a
    recorded expiry with the same seconds and nanoseconds as the live
    one. *)
Theorem reload_iff_expiries_differ (env : Env) (ips : list string) (expiry : Go.Time)
    (cert : Certificate) :
  Reconciling env ips expiry cert ->
  (expiries_equal cert expiry = true <->
     ∃ recorded, NotAfter (Status cert) = Some recorded ∧
                 sec (metav1.Time_ recorded) = sec expiry ∧
                 nsec (metav1.Time_ recorded) = nsec expiry) ∧
  (expiries_equal cert expiry = true ->
     http_requests (trace (main env)) = [] ∧
     EvLog LogValid ∈ trace (main env) ∧
     ending (main env) = Returns tt) ∧
  (expiries_equal cert expiry = false ->
     (∃ cfg, trace (main env) =
        prologue env cfg
          ++ [EvLog (LogWillExpire expiry); EvLog LogNotValid;
              EvLog (LogShouldExpire (NotAfter (Status cert)) expiry)]
          ++ trace (reloadFluentdConfig env ips)) ∧
     http_requests (trace (main env)) = http_requests (trace (reloadFluentdConfig env ips)) ∧
     ending (main env) = after_reload (ending (reloadFluentdConfig env ips))) ∧
  (http_requests (trace (main env)) ≠ [] -> expiries_equal cert expiry = false) ∧
  (EvLog LogNotValid ∈ trace (main env) <-> expiries_equal cert expiry = false).
Proof.
  intros HR. split; [apply expiries_equal_spec|].
  assert (∀ cfg, EvLog LogNotValid ∉ prologue env cfg) as Hpro.
  { intros cfg Hin. pose proof (prologue_stops_at env cfg) as Hs.
    unfold stops_at in Hs. rewrite Forall_forall in Hs.
    apply Hs in Hin. cbn in Hin. lia. }
  split; [|split; [|split]].
  - intros Heq. split; [by eapply run_equal_requests|].
    destruct (run_equal _ _ _ _ HR Heq) as (cfg & Ht & He).
    split; [|done]. rewrite Ht. apply elem_of_app. right. rewrite !elem_of_cons. auto.
  - intros Hne. destruct (run_differ _ _ _ _ HR Hne) as (cfg & Ht & He).
    split; [eauto|]. split; [by eapply run_differ_requests|done].
  - intros Hreq. destruct (expiries_equal cert expiry) eqn:Heq; [|done].
    destruct Hreq. by eapply run_equal_requests.
  - split.
    + intros Hin. destruct (expiries_equal cert expiry) eqn:Heq; [|done].
      destruct (run_equal _ _ _ _ HR Heq) as (cfg & Ht & _).
      rewrite Ht in Hin. apply elem_of_app in Hin as [Hin|Hin]; [by destruct (Hpro cfg)|].
      rewrite !elem_of_cons in Hin. destruct Hin as [?|[?|[?|?%elem_of_nil]]]; done.
    + intros Hne. destruct (run_differ _ _ _ _ HR Hne) as (cfg & -> & _).
      apply elem_of_app. right. apply elem_of_app. left. rewrite !elem_of_cons. auto.
Qed.

(** In a concrete world, the stages before the comparison are run. *)
Ltac reaches_comparison :=
  split; [by split|]; exists Scenario.the_config; repeat split; vm_compute; reflexivity.

(** Record and live certificate both expire in March: no request. *)
Lemma reload_iff_expiries_differ_witness :
  http_requests (trace (main Scenario.unchanged)) = [] ∧
  ending (main Scenario.unchanged) = Returns tt.
Proof.
  assert (Reconciling Scenario.unchanged Scenario.addresses Scenario.march
            (Scenario.the_certificate (Some Scenario.march))) as HR
    by reaches_comparison.
  destruct (reload_iff_expiries_differ _ _ _ _ HR) as (_ & Heq & _).
  destruct (Heq eq_refl) as (H1 & _ & H2). by split.
Defined.

(** The location of a time plays no part in the comparison. *)
Lemma expiries_equal_ignores_location :
  expiries_equal (Scenario.the_certificate (Some Scenario.march)) Scenario.march_local = true.
Proof. reflexivity. Qed.

(** C5. The comparison is exact at the native precision of the two
    timestamps: wrapping the live expiry keeps its nanoseconds, the
    comparison holds exactly when seconds and nanoseconds both agree, and
    two expiries with the same seconds and different nanoseconds put the
    run on the reload path. *)
Theorem expiry_comparison_is_exact (env : Env) (ips : list string) (expiry : Go.Time)
    (cert : Certificate) (recorded : metav1.Time) :
  NotAfter (Status cert) = Some recorded ->
  metav1.Time_ (metav1.NewTime expiry) = expiry ∧
  (expiries_equal cert expiry = true <->
     sec (metav1.Time_ recorded) = sec expiry ∧ nsec (metav1.Time_ recorded) = nsec expiry) ∧
  (sec (metav1.Time_ recorded) = sec expiry ->
   nsec (metav1.Time_ recorded) ≠ nsec expiry ->
   expiries_equal cert expiry = false ∧
   (Reconciling env ips expiry cert ->
      EvLog LogNotValid ∈ trace (main env) ∧
      http_requests (trace (main env)) = http_requests (trace (reloadFluentdConfig env ips)) ∧
      ending (main env) = after_reload (ending (reloadFluentdConfig env ips)))).
Proof.
  intros Hrec. split; [reflexivity|].
  assert (expiries_equal cert expiry = true <->
     sec (metav1.Time_ recorded) = sec expiry ∧ nsec (metav1.Time_ recorded) = nsec expiry)
    as Hspec.
  { rewrite expiries_equal_spec. split.
    - intros (r & Hr & ?). by simplify_eq.
    - eauto. }
  split; [done|]. intros Hsec Hnsec.
  assert (expiries_equal cert expiry = false) as Hne.
  { destruct (expiries_equal cert expiry); [|done]. by destruct Hspec as [[_ ?] _]. }
  split; [done|]. intros HR.
  destruct (reload_differ_path env ips expiry cert HR Hne) as (H1 & H2 & H3). done.
Qed.

(** The served expiry is half a second after the recorded one: every
    replica is asked to reload. *)
Lemma expiry_comparison_is_exact_witness :
  expiries_equal (Scenario.the_certificate (Some Scenario.march)) Scenario.march_and_a_half
    = false ∧
  http_requests (trace (main Scenario.half_a_second_apart)) = GET <$> Scenario.addresses.
Proof.
  assert (Reconciling Scenario.half_a_second_apart Scenario.addresses
            Scenario.march_and_a_half (Scenario.the_certificate (Some Scenario.march))) as HR
    by reaches_comparison.
  destruct (expiry_comparison_is_exact Scenario.half_a_second_apart Scenario.addresses
              Scenario.march_and_a_half (Scenario.the_certificate (Some Scenario.march))
              (metav1.NewTime Scenario.march) eq_refl)
    as (_ & _ & Hsub).
  destruct (Hsub eq_refl) as (Hne & Hrun); [cbn; lia|].
  split; [exact Hne|].
  destruct (Hrun HR) as (_ & -> & _). vm_compute. reflexivity.
Defined.

(** C9. When the certificate record has no recorded expiry, the
    comparison with any live expiry is false: the run takes the reload
    path over the discovered addresses, and every one of them gets its
    reload request when the requests go through. *)
Theorem missing_NotAfter_reloads (env : Env) (ips : list string) (expiry : Go.Time)
    (cert : Certificate) :
  Reconciling env ips expiry cert ->
  NotAfter (Status cert) = None ->
  expiries_equal cert expiry = false ∧
  EvLog LogNotValid ∈ trace (main env) ∧
  http_requests (trace (main env)) = http_requests (trace (reloadFluentdConfig env ips)) ∧
  ending (main env) = after_reload (ending (reloadFluentdConfig env ips)) ∧
  ((∀ i ip, ips !! i = Some ip -> reload_succeeds env i ip) ->
     http_requests (trace (main env)) = GET <$> ips ∧ ending (main env) = Returns tt).
Proof.
  intros HR Hnil.
  assert (expiries_equal cert expiry = false) as Hne
    by (unfold expiries_equal; by rewrite Hnil).
  destruct (reload_differ_path env ips expiry cert HR Hne) as (H1 & H2 & H3).
  split; [done|]. split; [done|]. split; [done|]. split; [done|].
  intros Hall. destruct (range_all_succeed env [] 0 ips Hall) as [He Hreq].
  rewrite H2, H3. unfold reloadFluentdConfig. by rewrite He, Hreq.
Qed.

Lemma missing_NotAfter_reloads_witness :
  http_requests (trace (main Scenario.no_recorded_expiry)) = GET <$> Scenario.addresses ∧
  ending (main Scenario.no_recorded_expiry) = Returns tt.
Proof.
  assert (Reconciling Scenario.no_recorded_expiry Scenario.addresses
            Scenario.june (Scenario.the_certificate None)) as HR
    by reaches_comparison.
  destruct (missing_NotAfter_reloads _ _ _ _ HR eq_refl) as (_ & _ & _ & _ & Hall).
  apply Hall. intros i ip Hi. split; [reflexivity|].
  exists (mkResponse 200 "200 OK" (Ok "reloaded")), "reloaded".
  split; [reflexivity|]. split; [cbn; lia|reflexivity].
Defined.

(** When no listed pod carries the label, discovery returns no address. *)
Lemma getFluentdIPs_no_labelled_pod (env : Env) (a : app) (pods : list Pod) :
  Pods_List env (namespace a) (pods_selector a) = Ok pods ->
  (∀ pod, pod ∈ pods -> ¬ has_statefulset_label pod) ->
  ending (getFluentdIPs env a) = Returns (Ok []).
Proof.
  intros Hlist Hnone. rewrite (getFluentdIPs_listed _ _ _ Hlist). cbn.
  replace (filter has_statefulset_label pods) with (@nil Pod); [done|].
  symmetry. clear Hlist. induction pods as [|pod pods IH]; [done|].
  rewrite filter_cons_False by (apply Hnone; left).
  apply IH. intros p Hp. apply Hnone. by right.
Qed.

(** C10. When the expiries differ and discovery returned no address, the
    fan-out sends no request and returns nil, and the run returns from
    [main] (exit status 0). *)
Theorem empty_discovery_completes (env : Env) (expiry : Go.Time) (cert : Certificate) :
  Reconciling env [] expiry cert ->
  expiries_equal cert expiry = false ->
  reloadFluentdConfig env [] = ([], Returns None) ∧
  http_requests (trace (main env)) = [] ∧
  EvLog LogNotValid ∈ trace (main env) ∧
  ending (main env) = Returns tt.
Proof.
  intros HR Hne.
  destruct (reload_differ_path env [] expiry cert HR Hne) as (H1 & H2 & H3).
  split; [reflexivity|]. split; [by rewrite H2|]. split; [done|]. by rewrite H3.
Qed.

Lemma empty_discovery_completes_witness :
  http_requests (trace (main Scenario.no_replica)) = [] ∧
  ending (main Scenario.no_replica) = Returns tt.
Proof.
  assert (Reconciling Scenario.no_replica [] Scenario.june
            (Scenario.the_certificate (Some Scenario.march))) as HR
    by reaches_comparison.
  destruct (empty_discovery_completes _ _ _ HR eq_refl) as (_ & H1 & _ & H2).
  by split.
Defined.



(** A 200 answer whose body cannot be read makes the reload step fail,
    although the request did not error and the status is below 400. *)
Lemma reload_unreadable_body_counterexample :
  ¬ fails_only_on_error_or_status Scenario.truncated_body "10.0.0.1".
Proof.
  unfold fails_only_on_error_or_status. intros [Hfail _].
  destruct Hfail as [(err & H)|(resp & H & Hst)].
  - vm_compute. discriminate.
  - vm_compute in H. discriminate.
  - vm_compute in H. injection H as <-. cbn in Hst. lia.
Qed.

(** C8 (amended). Every request of the reload step is a GET to
    [http://<ip>:24444/api/config.gracefulReload] for one of the
    addresses, sent through a client whose timeout is five seconds.  The
    step returns nil exactly when, for every address, the request can be
    built, is answered, has a status below 400 and a readable body;
    otherwise it returns one of its four reload errors, and never panics.
    For a single address the step fails exactly when the request cannot
    be built, the request errors, the status is 400 or more, or the body
    cannot be read; a readable body is logged and nothing else. *)
Theorem reload_request_shape_and_failure (env : Env) (ips : list string) :
  (∀ timeout req,
     EvHttpDo timeout req ∈ trace (reloadFluentdConfig env ips) ->
     timeout = 5 * 1000000000 ∧ Method req = "GET" ∧
     ∃ ip, ip ∈ ips ∧ URL req = "http://" +:+ ip +:+ ":24444/api/config.gracefulReload") ∧
  (ending (reloadFluentdConfig env ips) = Returns None <->
     ∀ i ip, ips !! i = Some ip -> reload_succeeds env i ip) ∧
  (∃ e, ending (reloadFluentdConfig env ips) = Returns e ∧
        ∀ err, e = Some err -> ReloadError err) ∧
  (∀ ip,
     ending (reloadFluentdConfig env [ip]) ≠ Returns None <->
     ((∃ err, url_Parse env (reload_url ip) = Some err) ∨
      (∃ err, client_Do env 0 (GET ip) = Err err) ∨
      (∃ resp, client_Do env 0 (GET ip) = Ok resp ∧
               (400 ≤ StatusCode resp ∨ ∃ err, Body resp = Err err)))) ∧
  (∀ ip resp b,
     url_Parse env (reload_url ip) = None ->
     client_Do env 0 (GET ip) = Ok resp ->
     StatusCode resp < 400 ->
     Body resp = Ok b ->
     reloadFluentdConfig env [ip] =
       ([EvLog (LogReloading ip); EvHttpDo (5 * Second) (GET ip); EvReadBody 0;
         EvLog (LogResponse b); EvBodyClose 0],
        Returns None)).
Proof.
  split; [|split; [|split; [|split]]].
  - intros timeout req Hin.
    destruct (range_request_shape env [] 0 ips timeout req Hin) as (-> & ip & Hip & ->).
    split; [reflexivity|]. split; [reflexivity|]. by exists ip.
  - split.
    + intros Hnil. by apply (range_nil_result env [] 0 ips).
    + intros Hall. by apply (range_all_succeed env [] 0 ips).
  - apply range_returns.
  - intros ip. unfold reloadFluentdConfig.
    destruct (request_cases env 0 ip)
      as [(err & H)|[(H & err & H2)|[(H & resp & H2 & H3)|
         [(H & resp & err & H2 & H3 & H4)|(H & resp & b & H2 & H3 & H4)]]]].
    + erewrite range_parse_error by done. split; [eauto|done].
    + erewrite range_transport_error by done. split; [eauto|done].
    + erewrite range_bad_status by done. split; [eauto 8|done].
    + erewrite range_body_error by done. split; [eauto 8|done].
    + erewrite range_next by done. rewrite range_nil. split; [done|].
      intros [(err & ?)|[(err & ?)|(resp' & ? & [?|(err & ?)])]] _; try congruence.
      assert (resp' = resp) as -> by congruence. lia.
  - intros ip resp b H1 H2 H3 H4. unfold reloadFluentdConfig.
    erewrite range_next by done. by rewrite range_nil.
Qed.

Lemma reload_request_shape_and_failure_witness :
  ending (reloadFluentdConfig Scenario.truncated_body ["10.0.0.1"]) ≠ Returns None.
Proof.
  apply (proj1 (proj2 (proj2 (proj2
           (reload_request_shape_and_failure Scenario.truncated_body ["10.0.0.1"]))))
           "10.0.0.1").
  right. right. exists (mkResponse 200 "200 OK" (Err (LibError "unexpected EOF"))).
  split; [reflexivity|]. right. by exists (LibError "unexpected EOF").
Defined.

(** ** Fatal errors *)

Section Fatal.

Context (env : Env).

(** [getConfig] panics exactly when one of the three variables is not
    set, and reads nothing but the environment. *)
Lemma getConfig_missing :
  (∃ p, ending (getConfig env) = Panics p) <->
  (∃ key, key ∈ required_variables ∧ os_LookupEnv env key = None).
Proof.
  unfold getConfig, LookupEnv, required_variables.
  destruct (os_LookupEnv env "FLUENTD_SERVICE_URL") eqn:H1;
    destruct (os_LookupEnv env "FLUENTD_CERT_NAME") eqn:H2;
    destruct (os_LookupEnv env "FLUENTD_NAMESPACE") eqn:H3; cbn;
    (split;
     [ intros [p Hp]; try discriminate;
       first [ exists "FLUENTD_SERVICE_URL"; split; [set_solver|done]
             | exists "FLUENTD_CERT_NAME"; split; [set_solver|done]
             | exists "FLUENTD_NAMESPACE"; split; [set_solver|done] ]
     | intros (key & Hkey & Hnone); try (by eexists);
       rewrite !elem_of_cons in Hkey;
       destruct Hkey as [->|[->|[->|[]%elem_of_nil]]]; congruence ]).
Qed.

Lemma getFluentdIPs_returns a : ∃ r, ending (getFluentdIPs env a) = Returns r.
Proof.
  destruct (Pods_List env (namespace a) (pods_selector a)) eqn:H.
  - rewrite (getFluentdIPs_listed _ _ _ H). eauto.
  - rewrite (getFluentdIPs_failed _ _ _ H). eauto.
Qed.

Lemma getCRD_returns a : ∃ r, ending (getCRD env a) = Returns r.
Proof.
  destruct (Certificates_Get env (certificates_uri a)) eqn:H.
  - rewrite (getCRD_listed _ _ _ H). cbn. rewrite getCRD_range_find.
    destruct (List.find _ _); eauto.
  - rewrite (getCRD_failed _ _ _ H). eauto.
Qed.

(** A run that returns from [main] went through every stage without an
    error. *)
Lemma main_returned :
  ending (main env) = Returns tt ->
  ∃ ips expiry cert,
    Reconciling env ips expiry cert ∧
    (expiries_equal cert expiry = true ∨
     ending (reloadFluentdConfig env ips) = Returns None).
Proof.
  intros Hret.
  destruct (rest_InClusterConfig env) as [err|] eqn:H1.
  { by rewrite (main_InClusterConfig_failed _ _ H1) in Hret. }
  destruct (kubernetes_NewForConfig env) as [err|] eqn:H2.
  { by rewrite (main_NewForConfig_failed _ _ H1 H2) in Hret. }
  assert (client_ready env) as Hready by done.
  destruct (ending (getConfig env)) as [cfg|p] eqn:H3.
  2:{ destruct (main_getConfig_panicked _ _ Hready H3) as [_ He]. congruence. }
  destruct (ending (getFluentdIPs env (app_of cfg))) as [[ips|err]|p] eqn:H4.
  2:{ destruct (main_discovery_failed _ _ _ Hready H3 H4) as [_ He]. congruence. }
  2:{ destruct (getFluentdIPs_returns (app_of cfg)). congruence. }
  destruct (ending (checkCert env (cfg_serviceURL cfg))) as [[expiry|err]|p] eqn:H5.
  2,3: (destruct (main_probe_ended env cfg ips _ Hready H3 H4 H5) as [_ He];
        [intros ?; discriminate|congruence]).
  destruct (ending (getCRD env (app_of cfg))) as [[cert|err]|p] eqn:H6.
  2:{ destruct (main_lookup_failed _ _ _ _ _ Hready H3 H4 H5 H6) as [_ He]. congruence. }
  2:{ destruct (getCRD_returns (app_of cfg)). congruence. }
  exists ips, expiry, cert.
  assert (Reconciling env ips expiry cert) as HR.
  { split; [done|]. by exists cfg. }
  split; [done|].
  destruct (expiries_equal cert expiry) eqn:Heq; [by left|right].
  destruct (reload_differ_path env ips expiry cert HR Heq) as (_ & _ & He).
  rewrite He in Hret.
  by destruct (ending (reloadFluentdConfig env ips)) as [[?|]|?].
Qed.

End Fatal.

(** C6. Every error is fatal and nothing is retried.  The events of a
    run follow the order client setup, configuration, discovery, probe,
    lookup, comparison, reload; the pods are listed, the host dialled and
    the certificates listed at most once, and the reload requests are
    those of a prefix of the discovered addresses.  When building the client,
    reading the configuration, discovery, the probe or the lookup fails,
    [main] panics with that error and no event of a later stage occurs;
    when the reload step returns an error [main] panics with it.  A run
    that returns from [main] had no failure in any stage. *)
Theorem main_fail_fast (env : Env) :
  Sorted stage_le (trace (main env)) ∧
  (∀ s, (count_calls s (trace (main env)) <= 1)%nat) ∧
  (∀ err,
     rest_InClusterConfig env = Some err ∨
     (rest_InClusterConfig env = None ∧ kubernetes_NewForConfig env = Some err) ->
     ending (main env) = Panics (PanicError err) ∧
     stops_at ClientSetup (trace (main env))) ∧
  (client_ready env ->
   (∀ key, key ∈ required_variables -> os_LookupEnv env key = None ->
      ∃ p, ending (getConfig env) = Panics p) ∧
   (∀ p, ending (getConfig env) = Panics p ->
      ending (main env) = Panics p ∧ stops_at Configuring (trace (main env))) ∧
   (∀ cfg, ending (getConfig env) = Returns cfg ->
    (∀ err, ending (getFluentdIPs env (app_of cfg)) = Returns (Err err) ->
       ending (main env) = Panics (PanicError err) ∧
       stops_at Discovering (trace (main env))) ∧
    (∀ ips, ending (getFluentdIPs env (app_of cfg)) = Returns (Ok ips) ->
     (∀ err, ending (checkCert env (cfg_serviceURL cfg)) = Returns (Err err) ->
        ending (main env) = Panics (PanicError err) ∧
        stops_at Probing (trace (main env))) ∧
     (∀ expiry, ending (checkCert env (cfg_serviceURL cfg)) = Returns (Ok expiry) ->
      (∀ err, ending (getCRD env (app_of cfg)) = Returns (Err err) ->
         ending (main env) = Panics (PanicError err) ∧
         stops_at LookingUp (trace (main env))) ∧
      (∀ cert err, ending (getCRD env (app_of cfg)) = Returns (Ok cert) ->
         expiries_equal cert expiry = false ->
         ending (reloadFluentdConfig env ips) = Returns (Some err) ->
         ending (main env) = Panics (PanicError err)))))) ∧
  (∀ ips expiry cert,
     Reconciling env ips expiry cert ->
     ∃ n, http_requests (trace (main env)) = GET <$> take n ips) ∧
  (ending (main env) = Returns tt ->
   ∃ ips expiry cert,
     Reconciling env ips expiry cert ∧
     (expiries_equal cert expiry = true ∨
      ending (reloadFluentdConfig env ips) = Returns None)).
Proof.
  split; [apply staged_sorted, main_staged|].
  split; [intros s; apply staged_calls_once, main_staged|].
  split; [|split; [|split; [|apply main_returned]]]; cycle 2.
  { intros ips expiry cert HR.
    destruct (expiries_equal cert expiry) eqn:Heq.
    - exists 0%nat. rewrite take_0. by eapply run_equal_requests.
    - destruct (range_requests_prefix env [] 0 ips) as [n Hn]. exists n.
      by rewrite (run_differ_requests _ _ _ _ HR Heq). }
  { intros err [H1|[H1 H2]].
    - rewrite (main_InClusterConfig_failed _ _ H1). split; [done|]. by repeat constructor.
    - rewrite (main_NewForConfig_failed _ _ H1 H2). split; [done|]. by repeat constructor. }
  intros Hready.
  assert (stops_at Configuring ([EvInClusterConfig; EvNewForConfig] ++ trace (getConfig env)))
    as Hcfg.
  { apply stops_at_app; [by repeat constructor|].
    eapply in_stage_stops_at; [apply getConfig_in_stage|done]. }
  split; [intros key Hkey Hnone; apply getConfig_missing; eauto|].
  split.
  { intros p H3. destruct (main_getConfig_panicked _ _ Hready H3) as [-> ->]. by split. }
  intros cfg H3.
  assert (stops_at Discovering
            ([EvInClusterConfig; EvNewForConfig] ++ trace (getConfig env)
               ++ trace (getFluentdIPs env (app_of cfg)))) as Hdisc.
  { rewrite app_assoc. apply stops_at_app.
    - eapply stops_at_mono; [exact Hcfg|cbn; lia].
    - eapply in_stage_stops_at; [apply getFluentdIPs_in_stage|done]. }
  split.
  { intros err H4. destruct (main_discovery_failed _ _ _ Hready H3 H4) as [-> ->]. by split. }
  intros ips H4. split.
  { intros err H5.
    destruct (main_probe_ended env cfg ips _ Hready H3 H4 H5) as [-> ->];
      [intros ?; discriminate|].
    split; [done|]. rewrite 2!app_assoc. apply stops_at_app.
    - rewrite <- app_assoc. eapply stops_at_mono; [exact Hdisc|cbn; lia].
    - eapply in_stage_stops_at; [apply checkCert_in_stage|done]. }
  intros expiry H5. split.
  { intros err H6. destruct (main_lookup_failed _ _ _ _ _ Hready H3 H4 H5 H6) as [-> ->].
    split; [done|apply prologue_stops_at]. }
  intros cert err H6 Hne Hrel.
  assert (Reconciling env ips expiry cert) as HR.
  { split; [done|]. by exists cfg. }
  destruct (reload_differ_path env ips expiry cert HR Hne) as (_ & _ & ->).
  by rewrite Hrel.
Qed.

(** Listing the pods is forbidden: the run panics with the discovery
    error, without a probe, a lookup or a reload. *)
Lemma main_fail_fast_witness :
  ending (main Scenario.pods_forbidden)
    = Panics (PanicError (Errorf_w "failed to get fluentd pods: %w"
                            (LibError "pods is forbidden"))) ∧
  stops_at Discovering (trace (main Scenario.pods_forbidden)).
Proof.
  destruct (main_fail_fast Scenario.pods_forbidden) as (_ & _ & _ & Hfatal & _ & _).
  destruct (Hfatal (conj eq_refl eq_refl)) as (_ & _ & Hcfg).
  destruct (Hcfg Scenario.the_config eq_refl) as (Hdisc & _).
  exact (Hdisc _ eq_refl).
Defined.

(** ** The scenarios, run *)

(** The certificate was renewed: the three replicas are asked to reload,
    in discovery order, and the run returns. *)
Example renewed_reloads_every_replica :
  http_requests (trace (main Scenario.renewed))
    = [GET "10.0.0.1"; GET "10.0.0.2"; GET "10.0.0.3"] ∧
  ending (main Scenario.renewed) = Returns tt.
Proof. split; vm_compute; reflexivity. Qed.

(** The second replica answers 503: the run panics with the reload error
    and the third replica is not contacted. *)
Example unavailable_replica_aborts :
  http_requests (trace (main Scenario.second_unavailable))
    = [GET "10.0.0.1"; GET "10.0.0.2"] ∧
  ending (main Scenario.second_unavailable)
    = Panics (PanicError (Errorf_s "failed to reload fluentd config: %s"
                            "503 Service Unavailable")).
Proof. split; vm_compute; reflexivity. Qed.

(** Nothing changed: the run only logs that the certificate is valid. *)
Example unchanged_is_valid :
  main Scenario.unchanged =
    (prologue Scenario.unchanged Scenario.the_config
       ++ [EvLog (LogWillExpire Scenario.march); EvLog (LogWillRenew None); EvLog LogValid],
     Returns tt).
Proof. vm_compute. reflexivity. Qed.

(** ** Configuration *)

Lemma getConfig_complete (env : Env) (serviceURL certName namespace : string) :
  os_LookupEnv env "FLUENTD_SERVICE_URL" = Some serviceURL ->
  os_LookupEnv env "FLUENTD_CERT_NAME" = Some certName ->
  os_LookupEnv env "FLUENTD_NAMESPACE" = Some namespace ->
  getConfig env =
    (EvLookupEnv <$> required_variables, Returns (mkConfig serviceURL certName namespace)).
Proof. intros H1 H2 H3. unfold getConfig, LookupEnv. by rewrite H1, H2, H3. Qed.

(** What a returned configuration holds. *)
Lemma getConfig_returned (env : Env) (cfg : config) :
  ending (getConfig env) = Returns cfg ->
  os_LookupEnv env "FLUENTD_SERVICE_URL" = Some (cfg_serviceURL cfg) ∧
  os_LookupEnv env "FLUENTD_CERT_NAME" = Some (cfg_certName cfg) ∧
  os_LookupEnv env "FLUENTD_NAMESPACE" = Some (cfg_namespace cfg).
Proof.
  unfold getConfig, LookupEnv.
  destruct (os_LookupEnv env "FLUENTD_SERVICE_URL");
    destruct (os_LookupEnv env "FLUENTD_CERT_NAME");
    destruct (os_LookupEnv env "FLUENTD_NAMESPACE"); cbn; intros [= <-]; done.
Qed.

(** X1. [getConfig] reads the three variables in the order service URL,
    certificate name, namespace.  At the first one that is not set it
    panics with that variable's name followed by " is not set", and the
    variables after it are not read; a set variable may hold the empty
    string.  When the three are set it returns them. *)
Theorem getConfig_reports_first_missing (env : Env) (i : nat) (key : string) :
  required_variables !! i = Some key ->
  (∀ j k, (j < i)%nat -> required_variables !! j = Some k -> is_Some (os_LookupEnv env k)) ->
  os_LookupEnv env key = None ->
  getConfig env = (EvLookupEnv <$> take (S i) required_variables, Panics (not_set key)).
Proof.
  intros Hi Hbefore Hnone. unfold getConfig, LookupEnv, not_set.
  destruct i as [|[|[|i]]]; cbn in Hi; simplify_eq.
  - by rewrite Hnone.
  - destruct (Hbefore 0%nat "FLUENTD_SERVICE_URL") as [v1 ->]; [lia|done|].
    cbn. by rewrite Hnone.
  - destruct (Hbefore 0%nat "FLUENTD_SERVICE_URL") as [v1 ->]; [lia|done|].
    destruct (Hbefore 1%nat "FLUENTD_CERT_NAME") as [v2 ->]; [lia|done|].
    cbn. by rewrite Hnone.
Qed.

Lemma getConfig_reports_first_missing_witness :
  getConfig Scenario.cert_name_unset =
    ([EvLookupEnv "FLUENTD_SERVICE_URL"; EvLookupEnv "FLUENTD_CERT_NAME"],
     Panics (PanicString "FLUENTD_CERT_NAME is not set")).
Proof.
  refine (getConfig_reports_first_missing Scenario.cert_name_unset 1 "FLUENTD_CERT_NAME"
            eq_refl _ eq_refl).
  intros j k Hj Hk. assert (j = 0%nat) as -> by lia.
  cbn in Hk. injection Hk as <-. by eexists.
Defined.

(** ** More on discovery *)

Lemma filter_split_length {A} (P : A -> Prop) `{∀ x, Decision (P x)} (l : list A) :
  (length (filter P l) + length (filter (λ x, ¬ P x) l))%nat = length l.
Proof.
  induction l as [|x l IH]; [done|].
  destruct (decide (P x)).
  - rewrite filter_cons_True, (filter_cons_False (λ x, ¬ P x)) by tauto. cbn. lia.
  - rewrite filter_cons_False, (filter_cons_True (λ x, ¬ P x)) by tauto. cbn. lia.
Qed.

(** X2. Discovery accounts for every listed pod exactly once: after the
    one listing call the trace holds one "skipped" line per pod that is
    not returned, so the returned addresses and the skipped lines add up
    to the number of pods listed.  Neither the value of the membership
    label nor the address itself (it may be empty) is looked at. *)
Theorem getFluentdIPs_accounts_for_every_pod (env : Env) (a : app) (pods : list Pod) :
  Pods_List env (namespace a) (pods_selector a) = Ok pods ->
  ∃ ips skipped,
    getFluentdIPs env a =
      (EvPodsList (namespace a) (pods_selector a) :: (EvLog ∘ LogPodSkipped <$> skipped),
       Returns (Ok ips)) ∧
    (length ips + length skipped)%nat = length pods ∧
    (∀ pod, pod ∈ pods -> Labels pod !! statefulset_label = None ->
       Pod_Name pod ∈ skipped) ∧
    (∀ pod v, pod ∈ pods -> Labels pod !! statefulset_label = Some v -> PodIP pod ∈ ips).
Proof.
  intros Hlist.
  exists (PodIP <$> filter has_statefulset_label pods),
         (Pod_Name <$> filter (λ p, ¬ has_statefulset_label p) pods).
  split; [|split; [|split]].
  - rewrite (getFluentdIPs_listed env a pods Hlist). by rewrite <- list_fmap_compose.
  - rewrite !length_fmap. apply filter_split_length.
  - intros pod Hin Hl. apply list_elem_of_fmap. exists pod. split; [done|].
    apply list_elem_of_filter. split; [|done].
    unfold has_statefulset_label. rewrite Hl. by apply is_Some_None.
  - intros pod v Hin Hl. apply list_elem_of_fmap. exists pod. split; [done|].
    apply list_elem_of_filter. split; [|done].
    unfold has_statefulset_label. rewrite Hl. by eexists.
Qed.

Lemma getFluentdIPs_accounts_for_every_pod_witness :
  ∃ ips skipped,
    getFluentdIPs (Scenario.world Scenario.three_pods [] Scenario.march Scenario.always_ok)
      (mkApp "logging" "fluentd-tls") =
      (EvPodsList "logging" "app=logging" :: (EvLog ∘ LogPodSkipped <$> skipped),
       Returns (Ok ips)) ∧
    (length ips + length skipped)%nat = 3%nat.
Proof.
  destruct (getFluentdIPs_accounts_for_every_pod
              (Scenario.world Scenario.three_pods [] Scenario.march Scenario.always_ok)
              (mkApp "logging" "fluentd-tls") Scenario.three_pods eq_refl)
    as (ips & skipped & H1 & H2 & _).
  exists ips, skipped. by split.
Defined.

(** ** More on the lookup *)

Section LookupMore.

Context (env : Env).

(** The loop of [getCRD] either stops at the first certificate that
    matches, having logged the ones before it, or logs them all. *)
Lemma getCRD_range_cases (a : app) (items : list Certificate) :
  (∃ before cert after,
     items = before ++ cert :: after ∧
     (∀ c, c ∈ before -> name_matches env (certName a) c = false) ∧
     name_matches env (certName a) cert = true ∧
     getCRD_range env a items =
       (EvLog ∘ LogNotFluentdCert ∘ Name <$> before, Returns (Ok cert))) ∨
  ((∀ c, c ∈ items -> name_matches env (certName a) c = false) ∧
   getCRD_range env a items =
     (EvLog ∘ LogNotFluentdCert ∘ Name <$> items, Returns (Err NotFoundError))).
Proof.
  induction items as [|c rest IH].
  - right. split; [|done]. intros c Hc. by apply elem_of_nil in Hc.
  - cbn [getCRD_range]. destruct (name_matches env (certName a) c) eqn:Hc.
    + left. exists [], c, rest. unfold name_matches in Hc. rewrite Hc.
      split; [done|]. split; [|done]. intros c' Hc'. by apply elem_of_nil in Hc'.
    + unfold name_matches in Hc. rewrite Hc. fold (name_matches env (certName a) c) in Hc.
      destruct IH as [(before & cert & after & -> & Hb & Hm & Hr)|[Hnone Hr]].
      * left. exists (c :: before), cert, after. split; [done|]. split; [|split; [done|]].
        { intros c' [->|Hc']%elem_of_cons; [done|by apply Hb]. }
        erewrite bind_returns by reflexivity. by rewrite Hr.
      * right. split.
        { intros c' [->|Hc']%elem_of_cons; [done|by apply Hnone]. }
        erewrite bind_returns by reflexivity. by rewrite Hr.
Qed.

End LookupMore.

(** X3. Without any assumption on the list: when [getCRD] returns a
    certificate, that certificate is listed, its name matches the target,
    no certificate listed before it matches, and exactly the certificates
    before it were logged as passed over; what is listed after it plays no
    part.  When it returns an error after a successful listing, the error
    is the not-found error, no listed name matches and every certificate
    was logged. *)
Theorem getCRD_returns_first_match (env : Env) (a : app) (items : list Certificate) :
  Certificates_Get env (certificates_uri a) = Ok items ->
  (∀ cert, ending (getCRD env a) = Returns (Ok cert) ->
     ∃ before after,
       items = before ++ cert :: after ∧
       (∀ c, c ∈ before -> name_matches env (certName a) c = false) ∧
       name_matches env (certName a) cert = true ∧
       trace (getCRD env a) =
         EvCertificatesGet (certificates_uri a)
           :: (EvLog ∘ LogNotFluentdCert ∘ Name <$> before)) ∧
  (∀ err, ending (getCRD env a) = Returns (Err err) ->
     err = NotFoundError ∧
     (∀ c, c ∈ items -> name_matches env (certName a) c = false) ∧
     trace (getCRD env a) =
       EvCertificatesGet (certificates_uri a)
         :: (EvLog ∘ LogNotFluentdCert ∘ Name <$> items)).
Proof.
  intros Hget. rewrite (getCRD_listed env a items Hget).
  destruct (getCRD_range_cases env a items)
    as [(before & cert & after & -> & Hb & Hm & Hr)|[Hnone Hr]]; rewrite Hr; cbn.
  - split; [|discriminate]. intros c [= <-]. by exists before, after.
  - split; [discriminate|]. by intros err [= <-].
Qed.

Lemma getCRD_returns_first_match_witness :
  ∃ before after,
    Scenario.two_certs (Some Scenario.march)
      = before ++ Scenario.the_certificate (Some Scenario.march) :: after ∧
    trace (getCRD (Scenario.world [] (Scenario.two_certs (Some Scenario.march))
                     Scenario.march Scenario.always_ok)
             (mkApp "logging" "fluentd-tls")) =
      EvCertificatesGet "/apis/cert-manager.io/v1/namespaces/logging/certificates"
        :: (EvLog ∘ LogNotFluentdCert ∘ Name <$> before).
Proof.
  destruct (proj1 (getCRD_returns_first_match
                     (Scenario.world [] (Scenario.two_certs (Some Scenario.march))
                        Scenario.march Scenario.always_ok)
                     (mkApp "logging" "fluentd-tls")
                     (Scenario.two_certs (Some Scenario.march)) eq_refl)
              (Scenario.the_certificate (Some Scenario.march)) eq_refl)
    as (before & after & H1 & _ & _ & H2).
  by exists before, after.
Defined.

(** X4. The case of the configured certificate name plays no part: for
    ASCII names, two targets that are equal once lower-cased make
    [getCRD] behave the same, log lines included. *)
Theorem getCRD_target_case_irrelevant (env : Env) (ns target target' : string)
    (items : list Certificate) :
  Certificates_Get env (certificates_uri (mkApp ns target)) = Ok items ->
  Forall (λ c, all_ascii (Name c)) items ->
  all_ascii target -> all_ascii target' ->
  lower target = lower target' ->
  getCRD env (mkApp ns target) = getCRD env (mkApp ns target').
Proof.
  intros Hget Hnames Ht Ht' Hlower.
  rewrite (getCRD_listed env (mkApp ns target) items Hget).
  rewrite (getCRD_listed env (mkApp ns target') items Hget).
  assert (getCRD_range env (mkApp ns target) items = getCRD_range env (mkApp ns target') items)
    as ->; [|done].
  clear Hget. induction Hnames as [|c rest Hc _ IH]; [done|].
  cbn [getCRD_range certName].
  assert (EqualFold (unicode_EqualFold env) (Name c) target
          = EqualFold (unicode_EqualFold env) (Name c) target') as ->.
  { apply eq_true_iff_eq. rewrite !EqualFold_ascii by done. by rewrite Hlower. }
  destruct (EqualFold _ (Name c) target'); [done|]. by rewrite IH.
Qed.

Lemma getCRD_target_case_irrelevant_witness :
  getCRD (Scenario.world [] (Scenario.two_certs (Some Scenario.march))
            Scenario.march Scenario.always_ok) (mkApp "logging" "fluentd-tls")
  = getCRD (Scenario.world [] (Scenario.two_certs (Some Scenario.march))
              Scenario.march Scenario.always_ok) (mkApp "logging" "Fluentd-TLS").
Proof.
  apply (getCRD_target_case_irrelevant
           (Scenario.world [] (Scenario.two_certs (Some Scenario.march))
              Scenario.march Scenario.always_ok)
           "logging" "fluentd-tls" "Fluentd-TLS"
           (Scenario.two_certs (Some Scenario.march)) eq_refl).
  - repeat constructor.
  - repeat constructor.
  - repeat constructor.
  - reflexivity.
Defined.

(** ** More on the reload fan-out *)

Section FanoutMore.

Context (env : Env).

Lemma body_closes_app t1 t2 : body_closes (t1 ++ t2) = body_closes t1 ++ body_closes t2.
Proof. apply omap_app. Qed.

Lemma http_requests_closes (d : list nat) : http_requests (EvBodyClose <$> d) = [].
Proof. by induction d. Qed.

(** The loop keeps every response open until it returns: the [Close]
    calls come last, newest response first, then those deferred before;
    a request that was sent has its body closed exactly when it was
    answered with a response. *)
Lemma range_closes_last d k ips :
  ∃ pre m,
    trace (reloadFluentdConfig_range env d k ips)
      = pre ++ (EvBodyClose <$> (rev (seq k m) ++ d)) ∧
    body_closes pre = [] ∧
    (m <= length (http_requests pre) <= S m)%nat ∧
    (∀ j, (j < m)%nat ->
       ∃ ip resp, ips !! j = Some ip ∧ client_Do env (k + j) (GET ip) = Ok resp) ∧
    (∀ j ip, ips !! j = Some ip -> (j < length (http_requests pre))%nat ->
       ((j < m)%nat <-> ∃ resp, client_Do env (k + j) (GET ip) = Ok resp)) ∧
    (ending (reloadFluentdConfig_range env d k ips) = Returns None -> m = length ips).
Proof.
  revert d k. induction ips as [|ip rest IH]; intros d k.
  - exists [], 0%nat. rewrite range_nil. cbn.
    split; [done|]. split; [done|]. split; [lia|]. split; [intros j Hj; lia|].
    split; [intros j ip Hj; discriminate|done].
  - destruct (request_cases env k ip)
      as [(err & H)|[(H & err & H2)|[(H & resp & H2 & H3)|
         [(H & resp & err & H2 & H3 & H4)|(H & resp & b & H2 & H3 & H4)]]]].
    + exists [EvLog (LogReloading ip)], 0%nat. erewrite range_parse_error by done. cbn.
      split; [done|]. split; [done|]. split; [lia|]. split; [intros j Hj; lia|].
      split; [intros j ip' _ Hj; lia|discriminate].
    + exists [EvLog (LogReloading ip); EvHttpDo (5 * Second) (GET ip)], 0%nat.
      erewrite range_transport_error by done. cbn.
      split; [done|]. split; [done|]. split; [lia|]. split; [intros j Hj; lia|].
      split; [|discriminate].
      intros j ip' Hl Hj. assert (j = 0%nat) as -> by lia.
      cbn in Hl. injection Hl as <-. rewrite Nat.add_0_r.
      split; [lia|]. intros [resp Hresp]. congruence.
    + exists [EvLog (LogReloading ip); EvHttpDo (5 * Second) (GET ip)], 1%nat.
      erewrite range_bad_status by done. cbn.
      split; [done|]. split; [done|]. split; [lia|]. split; [|split; [|discriminate]].
      * intros j Hj. assert (j = 0%nat) as -> by lia. rewrite Nat.add_0_r. eauto.
      * intros j ip' Hl Hj. assert (j = 0%nat) as -> by lia.
        cbn in Hl. injection Hl as <-. rewrite Nat.add_0_r. split; [eauto|lia].
    + exists [EvLog (LogReloading ip); EvHttpDo (5 * Second) (GET ip); EvReadBody k], 1%nat.
      erewrite range_body_error by done. cbn.
      split; [done|]. split; [done|]. split; [lia|]. split; [|split; [|discriminate]].
      * intros j Hj. assert (j = 0%nat) as -> by lia. rewrite Nat.add_0_r. eauto.
      * intros j ip' Hl Hj. assert (j = 0%nat) as -> by lia.
        cbn in Hl. injection Hl as <-. rewrite Nat.add_0_r. split; [eauto|lia].
    + destruct (IH (k :: d) (S k)) as (pre & m & Ht & Hpre & Hm & Hresp & Hiff & Hend).
      exists ([EvLog (LogReloading ip); EvHttpDo (5 * Second) (GET ip); EvReadBody k;
               EvLog (LogResponse b)] ++ pre), (S m).
      erewrite range_next by done. unfold trace at 1, ending at 1. cbn [fst snd].
      split; [|split; [|split; [|split; [|split]]]].
      * rewrite Ht. rewrite <- app_assoc. do 2 f_equal.
        cbn [seq rev]. by rewrite <- !app_assoc.
      * by rewrite body_closes_app, Hpre.
      * rewrite http_requests_app, length_app. cbn. lia.
      * intros [|j] Hj.
        { rewrite Nat.add_0_r. eauto. }
        destruct (Hresp j) as (ip' & resp' & ? & ?); [lia|].
        exists ip', resp'. split; [done|].
        by replace (k + S j)%nat with (S k + j)%nat by lia.
      * rewrite http_requests_app, length_app. cbn [http_requests omap length Nat.add].
        intros [|j] ip' Hl Hj.
        { cbn in Hl. injection Hl as <-. rewrite Nat.add_0_r. split; [eauto|lia]. }
        cbn in Hl. replace (k + S j)%nat with (S k + j)%nat by lia.
        rewrite <- (Hiff j ip' Hl) by (cbn in Hj; lia). lia.
      * intros He. cbn. f_equal. by apply Hend.
Qed.

(** As long as the requests go through, the loop moves on: after [i]
    successes it is in the state of a fresh loop on the remaining
    addresses, with [i] requests sent and [i] bodies to close. *)
Lemma range_skip_successes i : ∀ d k ips,
  (∀ j ip, (j < i)%nat -> ips !! j = Some ip -> reload_succeeds env (k + j) ip) ->
  (i <= length ips)%nat ->
  ∃ pre,
    reloadFluentdConfig_range env d k ips =
      (pre ++ trace (reloadFluentdConfig_range env (rev (seq k i) ++ d) (k + i) (drop i ips)),
       ending (reloadFluentdConfig_range env (rev (seq k i) ++ d) (k + i) (drop i ips))) ∧
    http_requests pre = GET <$> take i ips.
Proof.
  induction i as [|i IH]; intros d k ips Hbefore Hlen.
  - exists []. rewrite Nat.add_0_r, drop_0. cbn.
    by destruct (reloadFluentdConfig_range env d k ips).
  - destruct ips as [|ip rest]; [cbn in Hlen; lia|].
    destruct (Hbefore 0%nat ip) as (H & resp & b & H2 & H3 & H4); [lia|done|].
    rewrite Nat.add_0_r in H2.
    destruct (IH (k :: d) (S k) rest) as (pre & Hr & Hreq).
    { intros j ip' Hj Hl. replace (S k + j)%nat with (k + S j)%nat by lia.
      apply Hbefore; [lia|done]. }
    { cbn in Hlen. lia. }
    exists ([EvLog (LogReloading ip); EvHttpDo (5 * Second) (GET ip); EvReadBody k;
             EvLog (LogResponse b)] ++ pre).
    erewrite range_next by done. rewrite Hr. unfold trace at 1, ending at 1. cbn [fst snd].
    replace (rev (seq k (S i)) ++ d) with (rev (seq (S k) i) ++ k :: d)
      by (cbn [seq rev]; by rewrite <- !app_assoc).
    replace (k + S i)%nat with (S k + i)%nat by lia.
    split; [by rewrite <- app_assoc|].
    rewrite http_requests_app, Hreq. reflexivity.
Qed.

End FanoutMore.

Lemma no_close_without_body_closes (t : list Event) (j : nat) :
  body_closes t = [] -> EvBodyClose j ∈ t -> False.
Proof.
  induction t as [|e t IH]; intros Hnone Hin; [by apply elem_of_nil in Hin|].
  apply elem_of_cons in Hin as [<-|Hin]; [discriminate|].
  apply IH; [|done]. by destruct e.
Qed.

(** X5. The reload step keeps every response body open until it
    returns.  Its trace is the work of the loop followed by the [Close]
    calls, the newest response first; no body is closed while requests
    are still being sent, whether the step ends with nil or with an
    error.  There is one [Close] for each response received and none for
    anything else: a request that was sent has its body closed exactly
    when [client.Do] answered it with a response, whatever the status of
    that response, so at most the last request, the one that met a
    transport error, has nothing to close.  After a nil result there are
    as many closes as addresses. *)
Theorem reload_bodies_closed_at_return (env : Env) (ips : list string) :
  ∃ pre m,
    trace (reloadFluentdConfig env ips) = pre ++ (EvBodyClose <$> rev (seq 0 m)) ∧
    body_closes pre = [] ∧
    body_closes (trace (reloadFluentdConfig env ips)) = rev (seq 0 m) ∧
    http_requests pre = http_requests (trace (reloadFluentdConfig env ips)) ∧
    (m <= length (http_requests pre) <= S m)%nat ∧
    (∀ j, (j < m)%nat -> ∃ ip resp, ips !! j = Some ip ∧ client_Do env j (GET ip) = Ok resp) ∧
    (∀ j ip, ips !! j = Some ip ->
       (j < length (http_requests (trace (reloadFluentdConfig env ips))))%nat ->
       (EvBodyClose j ∈ trace (reloadFluentdConfig env ips)
        <-> ∃ resp, client_Do env j (GET ip) = Ok resp)) ∧
    (ending (reloadFluentdConfig env ips) = Returns None -> m = length ips).
Proof.
  destruct (range_closes_last env [] 0 ips)
    as (pre & m & Ht & Hpre & Hm & Hresp & Hiff & Hend).
  exists pre, m. rewrite app_nil_r in Ht. unfold reloadFluentdConfig.
  assert (body_closes (EvBodyClose <$> rev (seq 0 m)) = rev (seq 0 m)) as Hcl.
  { generalize (rev (seq 0 m)). intros l. induction l as [|x l IH]; [done|].
    cbn. f_equal. exact IH. }
  assert (http_requests pre = http_requests (trace (reloadFluentdConfig_range env [] 0 ips)))
    as Hreq by (by rewrite Ht, http_requests_app, http_requests_closes, app_nil_r).
  split; [done|]. split; [done|].
  split; [by rewrite Ht, body_closes_app, Hpre, Hcl|].
  split; [done|]. split; [done|]. split; [done|]. split; [|done].
  intros j ip Hl Hj. rewrite <- Hreq in Hj. rewrite <- (Hiff j ip Hl Hj).
  rewrite Ht, elem_of_app. split.
  - intros [Hin|Hin].
    + exfalso. by apply (no_close_without_body_closes pre j).
    + apply list_elem_of_fmap in Hin as (x & [= ->] & Hx).
      apply list_elem_of_In in Hx. apply (proj2 (in_rev _ _)) in Hx.
      apply in_seq in Hx. lia.
  - intros Hlt. right. apply list_elem_of_fmap. exists j. split; [done|].
    apply list_elem_of_In, (proj1 (in_rev _ _)), in_seq. lia.
Qed.

(** The second of three replicas answers 503: its body is closed all the
    same, as is the body of the first answer. *)
Lemma reload_bodies_closed_at_return_witness :
  EvBodyClose 1
    ∈ trace (reloadFluentdConfig Scenario.second_unavailable Scenario.addresses) ∧
  EvBodyClose 0
    ∈ trace (reloadFluentdConfig Scenario.second_unavailable Scenario.addresses).
Proof.
  destruct (reload_bodies_closed_at_return Scenario.second_unavailable Scenario.addresses)
    as (pre & m & _ & _ & _ & _ & _ & _ & Hiff & _).
  split.
  - apply (Hiff 1%nat "10.0.0.2" eq_refl); [vm_compute; lia|].
    by exists (mkResponse 503 "503 Service Unavailable" (Ok EmptyString)).
  - apply (Hiff 0%nat "10.0.0.1" eq_refl); [vm_compute; lia|].
    by exists (mkResponse 200 "200 OK" (Ok "reloaded")).
Defined.

(** X6. The error of the reload step tells what went wrong at the first
    address that did not go through, and how far the step got.  A URL
    that does not parse gives "failed to create request" around the parse
    error, and that address gets no request; a transport error gives
    "failed to send request" around it; a status of 400 or more gives
    "failed to reload fluentd config" with the status line; an unreadable
    body gives "failed to read response body" around the read error.  In
    the last three cases that address got its one request.  No later
    address is contacted in any case. *)
Theorem reload_error_identifies_failure (env : Env) (ips : list string) (i : nat)
    (ip : string) :
  ips !! i = Some ip ->
  (∀ j ip', (j < i)%nat -> ips !! j = Some ip' -> reload_succeeds env j ip') ->
  (∀ err, url_Parse env (reload_url ip) = Some err ->
     ending (reloadFluentdConfig env ips)
       = Returns (Some (Errorf_w "failed to create request: %w" err)) ∧
     http_requests (trace (reloadFluentdConfig env ips)) = GET <$> take i ips) ∧
  (url_Parse env (reload_url ip) = None ->
   (∀ err, client_Do env i (GET ip) = Err err ->
      ending (reloadFluentdConfig env ips)
        = Returns (Some (Errorf_w "failed to send request: %w" err)) ∧
      http_requests (trace (reloadFluentdConfig env ips)) = GET <$> take (S i) ips) ∧
   (∀ resp, client_Do env i (GET ip) = Ok resp ->
      (400 ≤ StatusCode resp ->
         ending (reloadFluentdConfig env ips)
           = Returns (Some (Errorf_s "failed to reload fluentd config: %s"
                              (Status_line resp))) ∧
         http_requests (trace (reloadFluentdConfig env ips)) = GET <$> take (S i) ips) ∧
      (StatusCode resp < 400 ->
       ∀ err, Body resp = Err err ->
         ending (reloadFluentdConfig env ips)
           = Returns (Some (Errorf_w "failed to read response body: %w" err)) ∧
         http_requests (trace (reloadFluentdConfig env ips)) = GET <$> take (S i) ips))).
Proof.
  intros Hi Hbefore. unfold reloadFluentdConfig.
  destruct (range_skip_successes env i [] 0 ips) as (pre & -> & Hreq).
  { intros j ip' Hj Hl. by apply Hbefore. }
  { apply lookup_lt_Some in Hi. lia. }
  rewrite (drop_S _ _ _ Hi). rewrite app_nil_r. cbn [Nat.add].
  unfold trace at 1 3 5 7, ending at 1 3 5 7. cbn [fst snd].
  rewrite (take_S_r _ _ _ Hi), fmap_app.
  split; [|intros Hparse; split; [|intros resp Hdo; split]].
  - intros err Hparse. erewrite range_parse_error by done.
    unfold trace, ending. cbn [fst snd].
    rewrite http_requests_app. cbn. by rewrite http_requests_closes, app_nil_r.
  - intros err Hdo. erewrite range_transport_error by done.
    unfold trace, ending. cbn [fst snd].
    rewrite !http_requests_app. cbn. by rewrite http_requests_closes, Hreq.
  - intros Hst. erewrite range_bad_status by done.
    unfold trace, ending. cbn [fst snd].
    rewrite !http_requests_app. cbn. by rewrite http_requests_closes, Hreq.
  - intros Hst err Hbody. erewrite range_body_error by done.
    unfold trace, ending. cbn [fst snd].
    rewrite !http_requests_app. cbn. by rewrite http_requests_closes, Hreq.
Qed.

Lemma reload_error_identifies_failure_witness :
  ending (reloadFluentdConfig Scenario.truncated_body Scenario.addresses)
    = Returns (Some (Errorf_w "failed to read response body: %w"
                       (LibError "unexpected EOF"))) ∧
  http_requests (trace (reloadFluentdConfig Scenario.truncated_body Scenario.addresses))
    = [GET "10.0.0.1"].
Proof.
  destruct (reload_error_identifies_failure Scenario.truncated_body Scenario.addresses
              0 "10.0.0.1" eq_refl) as [_ Hrest].
  - intros j ip' Hj. lia.
  - destruct (Hrest eq_refl) as [_ Hresp].
    destruct (Hresp _ eq_refl) as [_ Hbody].
    apply (Hbody ltac:(cbn; lia) _ eq_refl).
Defined.

(** ** More on the run *)

Section RunMore.

Context (env : Env).

(** Every event of a run comes from the client setup, from [getConfig],
    or, with the configuration [getConfig] returned, from discovery, the
    probe, the lookup or the comparison and what follows it. *)
Lemma main_trace_within (e : Event) :
  e ∈ trace (main env) ->
  e ∈ [EvInClusterConfig; EvNewForConfig] ∨
  e ∈ trace (getConfig env) ∨
  ∃ cfg, ending (getConfig env) = Returns cfg ∧
    (e ∈ trace (getFluentdIPs env (app_of cfg)) ∨
     e ∈ trace (checkCert env (cfg_serviceURL cfg)) ∨
     e ∈ trace (getCRD env (app_of cfg)) ∨
     ∃ ips expiry cert,
       Reconciling env ips expiry cert ∧ e ∈ trace (main_reconcile env ips expiry cert)).
Proof.
  destruct (rest_InClusterConfig env) as [err|] eqn:H1.
  { rewrite (main_InClusterConfig_failed _ _ H1). cbn. rewrite !elem_of_cons. tauto. }
  destruct (kubernetes_NewForConfig env) as [err|] eqn:H2.
  { rewrite (main_NewForConfig_failed _ _ H1 H2). cbn. tauto. }
  assert (client_ready env) as Hready by done.
  destruct (ending (getConfig env)) as [cfg|p] eqn:H3.
  2:{ destruct (main_getConfig_panicked _ _ Hready H3) as [-> _].
      rewrite elem_of_app. tauto. }
  destruct (ending (getFluentdIPs env (app_of cfg))) as [[ips|err]|p] eqn:H4.
  2:{ destruct (main_discovery_failed _ _ _ Hready H3 H4) as [-> _].
      rewrite !elem_of_app. intros [?|[?|?]]; eauto 8. }
  2:{ destruct (getFluentdIPs_returns env (app_of cfg)). congruence. }
  destruct (ending (checkCert env (cfg_serviceURL cfg))) as [[expiry|err]|p] eqn:H5.
  2,3: (destruct (main_probe_ended env cfg ips _ Hready H3 H4 H5) as [-> _];
        [intros ?; discriminate|];
        rewrite !elem_of_app; intros [?|[?|[?|?]]]; eauto 8).
  destruct (ending (getCRD env (app_of cfg))) as [[cert|err]|p] eqn:H6.
  2:{ destruct (main_lookup_failed _ _ _ _ _ Hready H3 H4 H5 H6) as [-> _].
      unfold prologue. rewrite !elem_of_app. intros [?|[?|[?|[?|?]]]]; eauto 8. }
  2:{ destruct (getCRD_returns env (app_of cfg)). congruence. }
  destruct (main_reconciling _ _ _ _ _ Hready H3 H4 H5 H6) as [-> _].
  assert (Reconciling env ips expiry cert) as HR.
  { split; [done|]. by exists cfg. }
  unfold prologue. rewrite !elem_of_app. intros [[?|[?|[?|[?|?]]]]|?]; eauto 12.
Qed.

Lemma in_stage_elem s t e : in_stage s t -> e ∈ t -> stage_of e = s.
Proof. unfold in_stage. rewrite Forall_forall. eauto. Qed.

End RunMore.

(** X7. A run never sends a reload request it has no reason to send.
    Every request of a run comes after a successful probe and lookup whose
    expiries differ, goes through a client with a five-second timeout, and
    is the reload request for the address of a pod that the cluster
    listed for the configured namespace and that carries the statefulset
    membership label. *)
Theorem main_requests_justified (env : Env) (timeout : Z) (req : Request) :
  EvHttpDo timeout req ∈ trace (main env) ->
  timeout = 5 * Second ∧
  (∃ ips expiry cert,
     Reconciling env ips expiry cert ∧ expiries_equal cert expiry = false) ∧
  (∃ ns pods pod,
     os_LookupEnv env "FLUENTD_NAMESPACE" = Some ns ∧
     Pods_List env ns ("app=" +:+ ns) = Ok pods ∧
     pod ∈ pods ∧ has_statefulset_label pod ∧
     req = GET (PodIP pod)).
Proof.
  intros Hin.
  destruct (main_trace_within env _ Hin)
    as [Hs|[Hc|(cfg & Hcfg & [Hd|[Hp|[Hl|(ips & expiry & cert & HR & Hrec)]]])]].
  - rewrite !elem_of_cons in Hs. destruct Hs as [?|[?|[]%elem_of_nil]]; discriminate.
  - by apply (in_stage_elem _ _ _ (getConfig_in_stage env)) in Hc.
  - by apply (in_stage_elem _ _ _ (getFluentdIPs_in_stage env _)) in Hd.
  - by apply (in_stage_elem _ _ _ (checkCert_in_stage env _)) in Hp.
  - by apply (in_stage_elem _ _ _ (getCRD_in_stage env _)) in Hl.
  - destruct (expiries_equal cert expiry) eqn:Heq.
    { rewrite (main_reconcile_equal _ _ _ _ Heq) in Hrec. cbn in Hrec.
      rewrite !elem_of_cons in Hrec. destruct Hrec as [?|[?|[?|[]%elem_of_nil]]]; discriminate. }
    rewrite (main_reconcile_differ _ _ _ _ Heq) in Hrec. unfold trace at 1 in Hrec.
    cbn [fst] in Hrec. apply elem_of_app in Hrec as [Hlogs|Hreq].
    { rewrite !elem_of_cons in Hlogs.
      destruct Hlogs as [?|[?|[?|[]%elem_of_nil]]]; discriminate. }
    destruct (range_request_shape env [] 0 ips timeout req Hreq) as (-> & ip & Hip & ->).
    split; [done|]. split; [eauto|].
    destruct HR as (_ & cfg' & Hcfg' & Hips & _).
    destruct (getConfig_returned env cfg' Hcfg') as (_ & _ & Hns).
    exists (cfg_namespace cfg').
    destruct (Pods_List env (cfg_namespace cfg') ("app=" +:+ cfg_namespace cfg'))
      as [pods|err] eqn:Hlist.
    + rewrite (getFluentdIPs_listed env (app_of cfg') pods Hlist) in Hips.
      injection Hips as <-.
      apply list_elem_of_fmap in Hip as (pod & -> & Hpod).
      apply list_elem_of_filter in Hpod as [Hlabel Hpod].
      exists pods, pod. done.
    + by rewrite (getFluentdIPs_failed env (app_of cfg') err Hlist) in Hips.
Qed.

Lemma main_requests_justified_witness :
  ∃ ns pods pod,
    os_LookupEnv Scenario.renewed "FLUENTD_NAMESPACE" = Some ns ∧
    Pods_List Scenario.renewed ns ("app=" +:+ ns) = Ok pods ∧
    pod ∈ pods ∧ has_statefulset_label pod ∧
    GET "10.0.0.2" = GET (PodIP pod).
Proof.
  refine (proj2 (proj2 (main_requests_justified Scenario.renewed (5 * Second)
                          (GET "10.0.0.2") _))).
  apply list_elem_of_In. vm_compute. repeat first [left; reflexivity | right].
Defined.

Section Wiring.

Context (env : Env).

Lemma getConfig_events e :
  e ∈ trace (getConfig env) -> ∃ key, e = EvLookupEnv key ∧ key ∈ required_variables.
Proof.
  unfold getConfig, LookupEnv, required_variables.
  destruct (os_LookupEnv env "FLUENTD_SERVICE_URL");
    destruct (os_LookupEnv env "FLUENTD_CERT_NAME");
    destruct (os_LookupEnv env "FLUENTD_NAMESPACE"); cbn;
    rewrite !elem_of_cons; intros H;
    repeat (destruct H as [->|H]; [eexists; split; [done|]; rewrite !elem_of_cons; auto|]);
    by apply elem_of_nil in H.
Qed.

Lemma getFluentdIPs_events a e :
  e ∈ trace (getFluentdIPs env a) ->
  e = EvPodsList (namespace a) (pods_selector a) ∨ ∃ name, e = EvLog (LogPodSkipped name).
Proof.
  destruct (Pods_List env (namespace a) (pods_selector a)) as [pods|err] eqn:H.
  - rewrite (getFluentdIPs_listed _ _ _ H). cbn.
    intros [->|(pod & -> & _)%list_elem_of_fmap]%elem_of_cons; [by left|right].
    by eexists.
  - rewrite (getFluentdIPs_failed _ _ _ H). cbn.
    intros [->|[]%elem_of_nil]%elem_of_cons. by left.
Qed.

Lemma getCRD_events a e :
  e ∈ trace (getCRD env a) ->
  e = EvCertificatesGet (certificates_uri a) ∨ ∃ name, e = EvLog (LogNotFluentdCert name).
Proof.
  destruct (Certificates_Get env (certificates_uri a)) as [items|err] eqn:H.
  - rewrite (getCRD_listed _ _ _ H). cbn. rewrite getCRD_range_trace.
    intros [->|(c & -> & _)%list_elem_of_fmap]%elem_of_cons; [by left|right].
    by eexists.
  - rewrite (getCRD_failed _ _ _ H). cbn.
    intros [->|[]%elem_of_nil]%elem_of_cons. by left.
Qed.

Lemma checkCert_events serviceURL e :
  e ∈ trace (checkCert env serviceURL) ->
  e = EvTlsDial "tcp" (serviceURL +:+ ":443") ∨
  e = EvVerifyHostname serviceURL ∨
  ∃ issuer expiry, e = EvLog (LogIssuerExpiry issuer expiry).
Proof.
  unfold checkCert, tls_Dial.
  destruct (net_Dial env "tcp" (serviceURL +:+ ":443"));
    [cbn; intros [->|[]%elem_of_nil]%elem_of_cons; by left|].
  destruct (tls_Handshake env (serviceURL +:+ ":443")) as [conn|err];
    [|cbn; intros [->|[]%elem_of_nil]%elem_of_cons; by left].
  cbn. destruct (VerifyHostname conn serviceURL);
    [cbn; rewrite !elem_of_cons; intros [->|[->|[]%elem_of_nil]]; auto|].
  destruct (PeerCertificates conn); cbn; rewrite !elem_of_cons.
  - intros [->|[->|[]%elem_of_nil]]; auto.
  - intros [->|[->|[->|[]%elem_of_nil]]]; eauto.
Qed.

Lemma main_reconcile_events ips expiry cert e :
  e ∈ trace (main_reconcile env ips expiry cert) ->
  stage_of e = Comparing ∨ stage_of e = Reloading.
Proof.
  destruct (expiries_equal cert expiry) eqn:Heq.
  - rewrite (main_reconcile_equal _ _ _ _ Heq). cbn. rewrite !elem_of_cons.
    intros [->|[->|[->|[]%elem_of_nil]]]; by left.
  - rewrite (main_reconcile_differ _ _ _ _ Heq). unfold trace at 1. cbn [fst].
    rewrite elem_of_app, !elem_of_cons.
    intros [[->|[->|[->|[]%elem_of_nil]]]|Hin]; [by left..|right].
    eapply in_stage_elem; [apply reloadFluentdConfig_range_in_stage|exact Hin].
Qed.

End Wiring.

(** X8. The calls of a run are driven by the configuration and by
    nothing else.  The pods are listed in the namespace of
    [FLUENTD_NAMESPACE] with the selector "app=" followed by that
    namespace; the certificates are requested under that same namespace;
    the probe dials "tcp" to the host of [FLUENTD_SERVICE_URL] at port 443
    and verifies that same host name; no other environment variable than
    the three is read; and a certificate that reaches the comparison has
    a name matching [FLUENTD_CERT_NAME]. *)
Theorem main_calls_follow_configuration (env : Env) :
  (∀ e, e ∈ trace (main env) ->
     (∀ ns selector, e = EvPodsList ns selector ->
        os_LookupEnv env "FLUENTD_NAMESPACE" = Some ns ∧ selector = "app=" +:+ ns) ∧
     (∀ uri, e = EvCertificatesGet uri ->
        ∃ ns, os_LookupEnv env "FLUENTD_NAMESPACE" = Some ns ∧
              uri = "/apis/cert-manager.io/v1/namespaces/" +:+ ns +:+ "/certificates") ∧
     (∀ network addr, e = EvTlsDial network addr ->
        network = "tcp" ∧
        ∃ host, os_LookupEnv env "FLUENTD_SERVICE_URL" = Some host ∧ addr = host +:+ ":443") ∧
     (∀ host, e = EvVerifyHostname host ->
        os_LookupEnv env "FLUENTD_SERVICE_URL" = Some host) ∧
     (∀ key, e = EvLookupEnv key -> key ∈ required_variables)) ∧
  (∀ ips expiry cert,
     Reconciling env ips expiry cert ->
     ∃ target, os_LookupEnv env "FLUENTD_CERT_NAME" = Some target ∧
               name_matches env target cert = true).
Proof.
  split.
  - intros e Hin.
    destruct (main_trace_within env _ Hin)
      as [Hs|[Hc|(cfg & Hcfg & [Hd|[Hp|[Hl|(ips & expiry & cert & HR & Hrec)]]])]].
    + rewrite !elem_of_cons in Hs. destruct Hs as [->|[->|[]%elem_of_nil]];
        repeat split; intros; discriminate.
    + destruct (getConfig_events env e Hc) as (key & -> & Hkey).
      repeat split; intros; try discriminate. by simplify_eq.
    + destruct (getConfig_returned env cfg Hcfg) as (Hurl & Hname & Hns).
      destruct (getFluentdIPs_events env _ e Hd) as [->|(name & ->)];
        repeat split; intros; try discriminate; by simplify_eq.
    + destruct (getConfig_returned env cfg Hcfg) as (Hurl & Hname & Hns).
      destruct (checkCert_events env _ e Hp) as [->|[->|(issuer & expiry & ->)]];
        repeat split; intros; try discriminate; simplify_eq; eauto.
    + destruct (getConfig_returned env cfg Hcfg) as (Hurl & Hname & Hns).
      destruct (getCRD_events env _ e Hl) as [->|(name & ->)];
        repeat split; intros; try discriminate; simplify_eq; eauto.
    + apply main_reconcile_events in Hrec.
      repeat split; intros; subst e; cbn in Hrec; destruct Hrec; discriminate.
  - intros ips expiry cert (_ & cfg & Hcfg & _ & _ & Hcrd).
    destruct (getConfig_returned env cfg Hcfg) as (_ & Hname & _).
    exists (cfg_certName cfg). split; [done|].
    destruct (Certificates_Get env (certificates_uri (app_of cfg))) as [items|err] eqn:Hget.
    + rewrite (getCRD_listed env _ items Hget) in Hcrd.
      destruct (getCRD_range_cases env (app_of cfg) items)
        as [(before & c & after & _ & _ & Hm & Hr)|[_ Hr]];
        rewrite Hr in Hcrd; cbn in Hcrd; [|discriminate].
      by injection Hcrd as <-.
    + by rewrite (getCRD_failed env _ _ Hget) in Hcrd.
Qed.

Lemma main_calls_follow_configuration_witness :
  ∃ target, os_LookupEnv Scenario.renewed "FLUENTD_CERT_NAME" = Some target ∧
            name_matches Scenario.renewed target
              (Scenario.the_certificate (Some Scenario.march)) = true.
Proof.
  assert (Reconciling Scenario.renewed Scenario.addresses Scenario.june
            (Scenario.the_certificate (Some Scenario.march))) as HR
    by reaches_comparison.
  exact (proj2 (main_calls_follow_configuration Scenario.renewed) _ _ _ HR).
Defined.

(** ** The revision without [getCRD] *)

Lemma run_bind_returns {A B} (m : Legacy.Run A) (f : A -> Legacy.Run B) t a :
  m = (t, Returns a) -> m ≫= f = (t ++ fst (f a), snd (f a)).
Proof.
  intros ->. unfold mbind, Legacy.Run_bind, Legacy.run_bind. by destruct (f a).
Qed.

Lemma run_bind_panics {A B} (m : Legacy.Run A) (f : A -> Legacy.Run B) t p :
  m = (t, Panics p) -> m ≫= f = (t, Panics p).
Proof. by intros ->. Qed.

Lemma run_bind_assoc {A B C} (m : Legacy.Run A) (f : A -> Legacy.Run B)
    (g : B -> Legacy.Run C) :
  (m ≫= f) ≫= g = m ≫= (λ a, f a ≫= g).
Proof.
  destruct m as [t [a|p]]; [|reflexivity].
  unfold mbind, Legacy.Run_bind, Legacy.run_bind.
  destruct (f a) as [t1 [b|p]]; [|reflexivity].
  destruct (g b) as [t2 o]. by rewrite app_assoc.
Qed.

Lemma run_bind_ext {A B} (m : Legacy.Run A) (f g : A -> Legacy.Run B) :
  (∀ a, f a = g a) -> m ≫= f = m ≫= g.
Proof.
  intros H. destruct m as [t [a|p]]; [|reflexivity].
  unfold mbind, Legacy.Run_bind, Legacy.run_bind. by rewrite H.
Qed.

Lemma lift_eq {A} (m : Proc A) : Legacy.lift m = (Legacy.Shared <$> trace m, ending m).
Proof. reflexivity. Qed.

Lemma run_bind_lift {A B} (m : Proc A) (f : A -> Legacy.Run B) :
  Legacy.lift m ≫= f =
    match ending m with
    | Returns a => ((Legacy.Shared <$> trace m) ++ fst (f a), snd (f a))
    | Panics p => (Legacy.Shared <$> trace m, Panics p)
    end.
Proof.
  destruct m as [t [a|p]]; [|reflexivity].
  unfold mbind, Legacy.Run_bind, Legacy.run_bind, Legacy.lift. cbn. by destruct (f a).
Qed.

Lemma shared_app t1 t2 : Legacy.shared (t1 ++ t2) = Legacy.shared t1 ++ Legacy.shared t2.
Proof. apply omap_app. Qed.

Lemma shared_lifted (t : list Event) : Legacy.shared (Legacy.Shared <$> t) = t.
Proof. induction t as [|e t IH]; [done|]. cbn. f_equal. exact IH. Qed.

Lemma shared_found name t : Legacy.shared (Legacy.LogFound name :: t) = Legacy.shared t.
Proof. reflexivity. Qed.

Lemma legacy_getFluentdIPs_same (env : Env) (ns target : string) :
  Legacy.getFluentdIPs env ns = getFluentdIPs env (mkApp ns target).
Proof. reflexivity. Qed.

Section LegacyRun.

Context (env : Env) (at_probe : nat -> Env) (lower_runes : string -> string).

Abbreviation inspect := (Legacy.inspect env at_probe lower_runes).

(** The run up to the loop. *)
Lemma legacy_main_listed ns url ips items :
  client_ready env ->
  os_LookupEnv env "FLUENTD_NAMESPACE" = Some ns ->
  os_LookupEnv env "FLUENTD_SERVICE_URL" = Some url ->
  ending (Legacy.getFluentdIPs env ns) = Returns (Ok ips) ->
  Certificates_Get env (legacy_uri ns) = Ok items ->
  Legacy.main env at_probe lower_runes =
    ((Legacy.Shared <$> legacy_prologue env ns)
       ++ fst (Legacy.range items (inspect ns url ips) (0%nat, 0%nat)),
     after_loop (snd (Legacy.range items (inspect ns url ips) (0%nat, 0%nat)))).
Proof.
  intros [H1 H2] Hns Hurl Hips Hget. unfold Legacy.main, legacy_prologue, LookupEnv.
  rewrite H1, H2, Hns, Hurl.
  do 4 (erewrite run_bind_returns by reflexivity; cbn [fst snd]).
  erewrite run_bind_returns by (rewrite lift_eq, Hips; reflexivity). cbn [fst snd].
  fold (legacy_uri ns). rewrite Hget.
  erewrite run_bind_returns by reflexivity. cbn [fst snd].
  destruct (Legacy.range items (inspect ns url ips) (0%nat, 0%nat)) as [t [st|p]];
    cbn; rewrite ?app_nil_r, !fmap_app; cbn; by rewrite <- ?app_assoc.
Qed.

Lemma inspect_unselected ns url ips st cert :
  Legacy.is_fluentd_certificate lower_runes ns cert = false ->
  inspect ns url ips st cert =
    ([Legacy.Shared (EvLog (LogNotFluentdCert (Name cert)))], Returns st).
Proof.
  unfold Legacy.is_fluentd_certificate, Legacy.inspect. destruct st as [p s].
  by intros ->.
Qed.

Lemma range_unselected ns url ips st items :
  (∀ c, c ∈ items -> Legacy.is_fluentd_certificate lower_runes ns c = false) ->
  Legacy.range items (inspect ns url ips) st =
    (Legacy.Shared ∘ EvLog ∘ LogNotFluentdCert ∘ Name <$> items, Returns st).
Proof.
  intros Hnone. induction items as [|c rest IH]; [done|].
  cbn [Legacy.range].
  erewrite run_bind_returns by (apply inspect_unselected, Hnone; left).
  rewrite IH by (intros c' Hc'; apply Hnone; by right). reflexivity.
Qed.

Lemma range_app ns url ips st items1 items2 :
  Legacy.range (items1 ++ items2) (inspect ns url ips) st =
    Legacy.range items1 (inspect ns url ips) st
      ≫= Legacy.range items2 (inspect ns url ips).
Proof.
  revert st. induction items1 as [|c rest IH]; intros st.
  - cbn. by destruct (Legacy.range items2 _ st).
  - rewrite <- app_comm_cons. cbn [Legacy.range].
    rewrite run_bind_assoc. apply run_bind_ext. intros st'. apply IH.
Qed.

(** What the loop does with a certificate it takes for the fluentd
    certificate: a probe, the comparison and, when the expiries differ,
    a whole fan-out. *)
Lemma inspect_selected ns url ips p s cert :
  Legacy.is_fluentd_certificate lower_runes ns cert = true ->
  inspect ns url ips (p, s) cert =
    match ending (checkCert (at_probe p) url) with
    | Panics v =>
        (Legacy.LogFound (Name cert) :: (Legacy.Shared <$> trace (checkCert (at_probe p) url)),
         Panics v)
    | Returns (Err err) =>
        (Legacy.LogFound (Name cert) :: (Legacy.Shared <$> trace (checkCert (at_probe p) url)),
         Panics (PanicError err))
    | Returns (Ok expiry) =>
        if expiries_equal cert expiry then
          (Legacy.LogFound (Name cert)
             :: (Legacy.Shared <$>
                   trace (checkCert (at_probe p) url)
                     ++ [EvLog (LogWillExpire expiry);
                         EvLog (LogWillRenew (RenewalTime (Status cert)));
                         EvLog LogValid]),
           Returns (S p, s))
        else
          (Legacy.LogFound (Name cert)
             :: (Legacy.Shared <$>
                   trace (checkCert (at_probe p) url)
                     ++ [EvLog (LogWillExpire expiry); EvLog LogNotValid;
                         EvLog (LogShouldExpire (NotAfter (Status cert)) expiry)]
                     ++ trace (reloadFluentdConfig_range env [] s ips)),
           match ending (reloadFluentdConfig_range env [] s ips) with
           | Returns None => Returns (S p, (s + length ips)%nat)
           | Returns (Some err) => Panics (PanicError err)
           | Panics v => Panics v
           end)
    end.
Proof.
  unfold Legacy.is_fluentd_certificate, Legacy.inspect, expiries_equal. intros ->.
  cbn [negb]. erewrite run_bind_returns by reflexivity. cbn [fst snd].
  rewrite (run_bind_lift (checkCert (at_probe p) url)).
  destruct (ending (checkCert (at_probe p) url)) as [[expiry|err]|v]; [| |done].
  - rewrite (run_bind_lift (log (LogWillExpire expiry))). cbn [ending log call snd].
    destruct (metav1.Equal (NotAfter (Status cert)) (Some (metav1.NewTime expiry))).
    + cbn. by rewrite !fmap_app.
    + rewrite (run_bind_lift (log LogNotValid)). cbn [ending log call snd].
      rewrite (run_bind_lift (log (LogShouldExpire (NotAfter (Status cert)) expiry))).
      cbn [ending log call snd].
      rewrite (run_bind_lift (reloadFluentdConfig_range env [] s ips)).
      destruct (ending (reloadFluentdConfig_range env [] s ips)) as [[err|]|v];
        cbn; rewrite !fmap_app; cbn; by rewrite ?app_nil_r.
  - cbn. by rewrite app_nil_r.
Qed.

End LegacyRun.

(** X10. In the revision without [getCRD], a certificate list in which no
    name contains the namespace is not an error: the run logs every
    certificate as passed over and returns from [main], without a probe
    and without a reload request.  The empty list is such a list. *)
Theorem legacy_returns_without_selected_certificate (env : Env) (at_probe : nat -> Env)
    (lower_runes : string -> string) (ns url : string) (ips : list string)
    (items : list Certificate) :
  client_ready env ->
  os_LookupEnv env "FLUENTD_NAMESPACE" = Some ns ->
  os_LookupEnv env "FLUENTD_SERVICE_URL" = Some url ->
  ending (Legacy.getFluentdIPs env ns) = Returns (Ok ips) ->
  Certificates_Get env (legacy_uri ns) = Ok items ->
  (∀ c, c ∈ items -> Legacy.is_fluentd_certificate lower_runes ns c = false) ->
  Legacy.main env at_probe lower_runes =
    (Legacy.Shared <$>
       legacy_prologue env ns ++ (EvLog ∘ LogNotFluentdCert ∘ Name <$> items),
     Returns tt) ∧
  count_calls Probing (Legacy.shared (fst (Legacy.main env at_probe lower_runes))) = 0%nat ∧
  http_requests (Legacy.shared (fst (Legacy.main env at_probe lower_runes))) = [].
Proof.
  intros Hready Hns Hurl Hips Hget Hnone.
  assert (Legacy.main env at_probe lower_runes =
    (Legacy.Shared <$>
       legacy_prologue env ns ++ (EvLog ∘ LogNotFluentdCert ∘ Name <$> items),
     Returns tt)) as Hmain.
  { rewrite (legacy_main_listed env at_probe lower_runes ns url ips items) by done.
    rewrite (range_unselected env at_probe lower_runes ns url ips _ items Hnone).
    cbn [fst snd after_loop]. by rewrite fmap_app, <- !list_fmap_compose. }
  split; [done|]. rewrite Hmain. cbn [fst]. rewrite shared_lifted.
  assert (in_stage LookingUp (EvLog ∘ LogNotFluentdCert ∘ Name <$> items)) as Hlogs
    by (apply Forall_fmap, Forall_forall; done).
  assert (in_stage Discovering (trace (Legacy.getFluentdIPs env ns))) as Hdisc
    by (rewrite (legacy_getFluentdIPs_same env ns EmptyString);
        apply getFluentdIPs_in_stage).
  unfold legacy_prologue. split.
  - rewrite !count_calls_app.
    rewrite (in_stage_no_calls _ Probing _ Hlogs), (in_stage_no_calls _ Probing _ Hdisc)
      by done.
    reflexivity.
  - rewrite !http_requests_app.
    rewrite (in_stage_no_requests _ _ Hlogs), (in_stage_no_requests _ _ Hdisc) by done.
    reflexivity.
Qed.

Lemma legacy_returns_without_selected_certificate_witness :
  snd (Legacy.main Scenario.renewed (λ _, Scenario.renewed) (λ s, s)) = Returns tt ∧
  http_requests
    (Legacy.shared (fst (Legacy.main Scenario.renewed (λ _, Scenario.renewed) (λ s, s))))
    = [].
Proof.
  destruct (legacy_returns_without_selected_certificate
              Scenario.renewed (λ _, Scenario.renewed) (λ s, s)
              "logging" "logging.donchev.is" Scenario.addresses
              (Scenario.two_certs (Some Scenario.march))
              (conj eq_refl eq_refl) eq_refl eq_refl)
    as (Hmain & _ & Hreq).
  - vm_compute. reflexivity.
  - reflexivity.
  - intros c Hc. cbn in Hc.
    apply elem_of_cons in Hc as [->|Hc]; [reflexivity|].
    apply elem_of_cons in Hc as [->|Hc]; [reflexivity|].
    by apply elem_of_nil in Hc.
  - split; [by rewrite Hmain|exact Hreq].
Defined.

Section LegacyCounts.

Context (env : Env) (at_probe : nat -> Env) (lower_runes : string -> string).
Context (ns url : string) (ips : list string) (expiry : Go.Time).
Context (Hprobe : ∀ p, ending (checkCert (at_probe p) url) = Returns (Ok expiry)).
Context (Hreq : ∀ k ip, ip ∈ ips -> reload_succeeds env k ip).

(** With every probe returning [expiry] and every request going through,
    the loop makes one probe per selected certificate and one fan-out per
    selected certificate whose recorded expiry is not [expiry]. *)
Lemma range_counts (items : list Certificate) : ∀ p s,
  ∃ t p' s',
    Legacy.range items (Legacy.inspect env at_probe lower_runes ns url ips) (p, s)
      = (t, Returns (p', s')) ∧
    count_calls Probing (Legacy.shared t) = length (selected lower_runes ns items) ∧
    http_requests (Legacy.shared t) =
      mjoin ((λ _, GET <$> ips) <$> stale expiry (selected lower_runes ns items)).
Proof.
  induction items as [|c rest IH]; intros p s.
  - exists [], p, s. done.
  - cbn [Legacy.range]. unfold selected, stale in *.
    destruct (Legacy.is_fluentd_certificate lower_runes ns c) eqn:Hsel.
    2:{ rewrite filter_cons_False by congruence.
        erewrite run_bind_returns by (by apply inspect_unselected).
        destruct (IH p s) as (t & p' & s' & -> & Hc & Hr).
        exists (Legacy.Shared (EvLog (LogNotFluentdCert (Name c))) :: t), p', s'.
        split; [done|]. done. }
    rewrite filter_cons_True by done.
    rewrite (inspect_selected env at_probe lower_runes ns url ips p s c Hsel), Hprobe.
    assert (in_stage Probing (trace (checkCert (at_probe p) url))) as Hstage
      by apply checkCert_in_stage.
    destruct (expiries_equal c expiry) eqn:Heq.
    + rewrite filter_cons_False by congruence.
      erewrite run_bind_returns by reflexivity. cbn [fst snd].
      destruct (IH (S p) s) as (t & p' & s' & -> & Hc & Hr).
      eexists _, p', s'. split; [reflexivity|].
      cbn [fst snd].
      rewrite <- app_comm_cons, shared_found, shared_app, shared_lifted. split.
      * rewrite !count_calls_app, checkCert_one_call, Hc. cbn. reflexivity.
      * rewrite !http_requests_app, (in_stage_no_requests _ _ Hstage) by done.
        cbn. exact Hr.
    + rewrite filter_cons_True by done.
      destruct (range_all_succeed env [] s ips) as [Hend Hget].
      { intros i ip Hi. apply Hreq. by eapply list_elem_of_lookup_2. }
      rewrite Hend.
      erewrite run_bind_returns by reflexivity. cbn [fst snd].
      destruct (IH (S p) (s + length ips)%nat) as (t & p' & s' & -> & Hc & Hr).
      eexists _, p', s'. split; [reflexivity|].
      cbn [fst snd].
      rewrite <- app_comm_cons, shared_found, shared_app, shared_lifted. split.
      * rewrite !count_calls_app, checkCert_one_call, Hc.
        rewrite (in_stage_no_calls _ Probing _
                   (reloadFluentdConfig_range_in_stage env [] s ips)) by done.
        cbn. reflexivity.
      * rewrite !http_requests_app, (in_stage_no_requests _ _ Hstage) by done.
        rewrite Hget, Hr. cbn. reflexivity.
Qed.

End LegacyCounts.

(** X11. In the revision without [getCRD], every certificate whose
    lower-cased name contains the namespace is probed for, and every one
    of them whose recorded expiry differs from the served one triggers a
    whole fan-out of its own.  When every probe returns the same expiry
    and every request goes through, the run makes as many probes as there
    are such certificates, sends the requests of one fan-out per stale
    one, each replica being asked once per fan-out, and returns. *)
Theorem legacy_one_fanout_per_stale_certificate (env : Env) (at_probe : nat -> Env)
    (lower_runes : string -> string) (ns url : string) (ips : list string)
    (items : list Certificate) (expiry : Go.Time) :
  client_ready env ->
  os_LookupEnv env "FLUENTD_NAMESPACE" = Some ns ->
  os_LookupEnv env "FLUENTD_SERVICE_URL" = Some url ->
  ending (Legacy.getFluentdIPs env ns) = Returns (Ok ips) ->
  Certificates_Get env (legacy_uri ns) = Ok items ->
  (∀ p, ending (checkCert (at_probe p) url) = Returns (Ok expiry)) ->
  (∀ k ip, ip ∈ ips -> reload_succeeds env k ip) ->
  snd (Legacy.main env at_probe lower_runes) = Returns tt ∧
  count_calls Probing (Legacy.shared (fst (Legacy.main env at_probe lower_runes)))
    = length (selected lower_runes ns items) ∧
  http_requests (Legacy.shared (fst (Legacy.main env at_probe lower_runes)))
    = mjoin ((λ _, GET <$> ips) <$> stale expiry (selected lower_runes ns items)).
Proof.
  intros Hready Hns Hurl Hips Hget Hprobe Hreq.
  rewrite (legacy_main_listed env at_probe lower_runes ns url ips items) by done.
  destruct (range_counts env at_probe lower_runes ns url ips expiry Hprobe Hreq items 0 0)
    as (t & p' & s' & -> & Hc & Hr).
  cbn [fst snd after_loop]. split; [done|].
  rewrite shared_app, shared_lifted.
  assert (in_stage Discovering (trace (Legacy.getFluentdIPs env ns))) as Hdisc
    by (rewrite (legacy_getFluentdIPs_same env ns EmptyString);
        apply getFluentdIPs_in_stage).
  unfold legacy_prologue. split.
  - rewrite !count_calls_app, (in_stage_no_calls _ Probing _ Hdisc), Hc by done.
    reflexivity.
  - rewrite !http_requests_app, (in_stage_no_requests _ _ Hdisc), Hr by done.
    reflexivity.
Qed.

Lemma legacy_one_fanout_per_stale_certificate_witness :
  http_requests
    (Legacy.shared (fst (Legacy.main Scenario.two_logging_certificates
                           (λ _, Scenario.two_logging_certificates) (λ s, s))))
  = (GET <$> Scenario.addresses) ++ (GET <$> Scenario.addresses).
Proof.
  destruct (legacy_one_fanout_per_stale_certificate
              Scenario.two_logging_certificates (λ _, Scenario.two_logging_certificates)
              (λ s, s) "logging" "logging.donchev.is" Scenario.addresses
              [Scenario.cert "Logging-A" (Some Scenario.march); Scenario.cert "x" None;
               Scenario.cert "b-logging" None]
              Scenario.june (conj eq_refl eq_refl) eq_refl eq_refl)
    as (_ & _ & Hreq).
  - vm_compute. reflexivity.
  - reflexivity.
  - intros p. reflexivity.
  - intros k ip Hip. split; [reflexivity|].
    exists (mkResponse 200 "200 OK" (Ok "reloaded")), "reloaded".
    split; [reflexivity|]. split; [cbn; lia|reflexivity].
  - rewrite Hreq. vm_compute. reflexivity.
Defined.

Section LegacyVariables.

Context (env : Env) (key : string) (v : option string).

Lemma reload_range_with_variable d k ips :
  reloadFluentdConfig_range (with_variable env key v) d k ips
  = reloadFluentdConfig_range env d k ips.
Proof.
  revert d k. induction ips as [|ip rest IH]; intros d k; [reflexivity|].
  cbn [reloadFluentdConfig_range]. unfold http_NewRequest. cbn [with_variable url_Parse].
  destruct (url_Parse env (reload_url ip)); [reflexivity|].
  cbn [with_variable client_Do Timeout].
  destruct (client_Do env k (mkRequest "GET" (reload_url ip))) as [resp|err];
    [|reflexivity].
  erewrite !bind_returns by reflexivity. cbn [trace ending fst snd].
  destruct (400 <=? StatusCode resp); [reflexivity|].
  destruct (Body resp) as [b|err]; [|reflexivity].
  erewrite !bind_returns by reflexivity. cbn [trace ending fst snd].
  erewrite !bind_returns by reflexivity. cbn [trace ending fst snd].
  by rewrite IH.
Qed.

Lemma inspect_with_variable at_probe lower_runes ns url ips st cert :
  Legacy.inspect (with_variable env key v) at_probe lower_runes ns url ips st cert
  = Legacy.inspect env at_probe lower_runes ns url ips st cert.
Proof.
  destruct (Legacy.is_fluentd_certificate lower_runes ns cert) eqn:Hsel.
  - destruct st as [p s]. rewrite !inspect_selected by done.
    by rewrite reload_range_with_variable.
  - by rewrite !inspect_unselected.
Qed.

Lemma range_with_variable at_probe lower_runes ns url ips items : ∀ st,
  Legacy.range items
    (Legacy.inspect (with_variable env key v) at_probe lower_runes ns url ips) st
  = Legacy.range items (Legacy.inspect env at_probe lower_runes ns url ips) st.
Proof.
  induction items as [|c rest IH]; intros st; [reflexivity|].
  cbn [Legacy.range]. rewrite inspect_with_variable. by apply run_bind_ext.
Qed.

End LegacyVariables.

(** X12. The revision without [getCRD] does not depend on
    [FLUENTD_CERT_NAME]: setting it to any value, or leaving it unset,
    changes nothing in the run. *)
Theorem legacy_ignores_certificate_name (env : Env) (at_probe : nat -> Env)
    (lower_runes : string -> string) (v : option string) :
  Legacy.main (with_variable env "FLUENTD_CERT_NAME" v) at_probe lower_runes
  = Legacy.main env at_probe lower_runes.
Proof.
  unfold Legacy.main.
  apply (run_bind_ext (Legacy.lift (call EvInClusterConfig (rest_InClusterConfig env)))).
  intros [err|]; [reflexivity|].
  apply (run_bind_ext (Legacy.lift (call EvNewForConfig (kubernetes_NewForConfig env)))).
  intros [err|]; [reflexivity|].
  apply (run_bind_ext (Legacy.lift (LookupEnv env "FLUENTD_NAMESPACE"))).
  intros [ns|]; [|reflexivity].
  apply (run_bind_ext (Legacy.lift (LookupEnv env "FLUENTD_SERVICE_URL"))).
  intros [url|]; [|reflexivity].
  apply (run_bind_ext (Legacy.lift (Legacy.getFluentdIPs env ns))).
  intros [ips|err]; [|reflexivity].
  apply (run_bind_ext
           (Legacy.lift (call (EvCertificatesGet (legacy_uri ns))
                           (Certificates_Get env (legacy_uri ns))))).
  intros [items|err]; [|reflexivity].
  by rewrite range_with_variable.
Qed.

Section Revisions.

Context (env : Env) (at_probe : nat -> Env) (lower_runes : string -> string).

Lemma legacy_main_discovery_failed ns url err :
  client_ready env ->
  os_LookupEnv env "FLUENTD_NAMESPACE" = Some ns ->
  os_LookupEnv env "FLUENTD_SERVICE_URL" = Some url ->
  ending (Legacy.getFluentdIPs env ns) = Returns (Err err) ->
  snd (Legacy.main env at_probe lower_runes) = Panics (PanicError err) ∧
  http_requests (Legacy.shared (fst (Legacy.main env at_probe lower_runes))) = [].
Proof.
  intros [H1 H2] Hns Hurl Hips.
  assert (in_stage Discovering (trace (Legacy.getFluentdIPs env ns))) as Hdisc
    by (rewrite (legacy_getFluentdIPs_same env ns EmptyString);
        apply getFluentdIPs_in_stage).
  unfold Legacy.main, LookupEnv. rewrite H1, H2, Hns, Hurl.
  do 4 (rewrite run_bind_lift; cbn [ending call snd]).
  rewrite run_bind_lift, Hips. cbn [fst snd Legacy.die].
  split; [reflexivity|].
  rewrite ?app_nil_r, !shared_app, !shared_lifted, !http_requests_app.
  rewrite (in_stage_no_requests _ _ Hdisc) by done. reflexivity.
Qed.

(** The loop on a list with exactly one selected certificate. *)
Lemma range_single ns url ips before cert after :
  (∀ c, c ∈ before ++ after -> Legacy.is_fluentd_certificate lower_runes ns c = false) ->
  Legacy.range (before ++ cert :: after)
    (Legacy.inspect env at_probe lower_runes ns url ips) (0%nat, 0%nat) =
    match Legacy.inspect env at_probe lower_runes ns url ips (0%nat, 0%nat) cert with
    | (t, Returns st) =>
        ((Legacy.Shared ∘ EvLog ∘ LogNotFluentdCert ∘ Name <$> before) ++ t
           ++ (Legacy.Shared ∘ EvLog ∘ LogNotFluentdCert ∘ Name <$> after),
         Returns st)
    | (t, Panics p) =>
        ((Legacy.Shared ∘ EvLog ∘ LogNotFluentdCert ∘ Name <$> before) ++ t, Panics p)
    end.
Proof.
  intros Hnone. rewrite range_app.
  rewrite (range_unselected env at_probe lower_runes ns url ips _ before)
    by (intros c Hc; apply Hnone, elem_of_app; by left).
  erewrite run_bind_returns by reflexivity. cbn [Legacy.range].
  destruct (Legacy.inspect env at_probe lower_runes ns url ips (0%nat, 0%nat) cert)
    as [t [st|p]]; [|reflexivity].
  erewrite run_bind_returns by reflexivity.
  rewrite (range_unselected env at_probe lower_runes ns url ips _ after)
    by (intros c Hc; apply Hnone, elem_of_app; by right).
  reflexivity.
Qed.

Lemma requests_of_passed_over (items : list Certificate) :
  http_requests (Legacy.shared (Legacy.Shared ∘ EvLog ∘ LogNotFluentdCert ∘ Name <$> items))
  = [].
Proof. by induction items. Qed.

End Revisions.

(** X13. The two revisions agree when they pick the same certificate.
    In a world where the configuration is complete, the probe of the
    revision without [getCRD] meets the same peer, exactly one listed
    certificate has a name containing the namespace, and that certificate
    is the first whose name matches [FLUENTD_CERT_NAME], both revisions
    end the same way (return, or the same panic) and send the same reload
    requests. *)
Theorem revisions_agree_on_single_certificate (env : Env) (at_probe : nat -> Env)
    (lower_runes : string -> string) (cfg : config)
    (before after : list Certificate) (cert : Certificate) :
  client_ready env ->
  ending (getConfig env) = Returns cfg ->
  at_probe 0%nat = env ->
  Certificates_Get env (legacy_uri (cfg_namespace cfg)) = Ok (before ++ cert :: after) ->
  (∀ c, c ∈ before ++ after ->
     Legacy.is_fluentd_certificate lower_runes (cfg_namespace cfg) c = false) ->
  Legacy.is_fluentd_certificate lower_runes (cfg_namespace cfg) cert = true ->
  (∀ c, c ∈ before -> name_matches env (cfg_certName cfg) c = false) ->
  name_matches env (cfg_certName cfg) cert = true ->
  snd (Legacy.main env at_probe lower_runes) = ending (main env) ∧
  http_requests (Legacy.shared (fst (Legacy.main env at_probe lower_runes)))
    = http_requests (trace (main env)).
Proof.
  intros Hready Hcfg Hpeer Hget Hothers Hsel Hbefore Hmatch.
  destruct (getConfig_returned env cfg Hcfg) as (Hurl & Hname & Hns).
  assert (in_stage Configuring (trace (getConfig env))) as Sc by apply getConfig_in_stage.
  assert (in_stage Discovering (trace (getFluentdIPs env (app_of cfg)))) as Sd
    by apply getFluentdIPs_in_stage.
  assert (in_stage Probing (trace (checkCert env (cfg_serviceURL cfg)))) as Sp
    by apply checkCert_in_stage.
  destruct (ending (getFluentdIPs env (app_of cfg))) as [[ips|err]|p] eqn:Hips.
  3:{ destruct (getFluentdIPs_returns env (app_of cfg)). congruence. }
  2:{ destruct (legacy_main_discovery_failed env at_probe lower_runes _ _ err
                  Hready Hns Hurl Hips) as [-> ->].
      destruct (main_discovery_failed env cfg err Hready Hcfg Hips) as [-> ->].
      split; [done|]. rewrite !http_requests_app.
      by rewrite (in_stage_no_requests _ _ Sc), (in_stage_no_requests _ _ Sd). }
  assert (ending (getCRD env (app_of cfg)) = Returns (Ok cert)) as Hcrd
    by (by apply (getCRD_first_match env (app_of cfg) before after cert)).
  rewrite (legacy_main_listed env at_probe lower_runes _ _ ips _ Hready Hns Hurl Hips Hget).
  rewrite (range_single env at_probe lower_runes _ _ ips before cert after Hothers).
  rewrite (inspect_selected env at_probe lower_runes _ _ ips 0 0 cert Hsel), Hpeer.
  assert (http_requests (Legacy.shared (Legacy.Shared <$> legacy_prologue env (cfg_namespace cfg)))
          = []) as Hpro.
  { assert (in_stage Discovering (trace (Legacy.getFluentdIPs env (cfg_namespace cfg))))
      as Sl by exact Sd.
    rewrite shared_lifted. unfold legacy_prologue. rewrite !http_requests_app.
    by rewrite (in_stage_no_requests _ _ Sl). }
  destruct (ending (checkCert env (cfg_serviceURL cfg))) as [[expiry|err]|v] eqn:Hprobe.
  2,3: (destruct (main_probe_ended env cfg ips _ Hready Hcfg Hips Hprobe) as [-> ->];
        [intros ?; discriminate|];
        cbn [fst snd after_loop]; split; [done|];
        rewrite !shared_app, !http_requests_app, Hpro, requests_of_passed_over;
        rewrite shared_found, shared_lifted;
        by rewrite (in_stage_no_requests _ _ Sc), (in_stage_no_requests _ _ Sd),
             (in_stage_no_requests _ _ Sp)).
  assert (Reconciling env ips expiry cert) as HR.
  { split; [done|]. by exists cfg. }
  destruct (expiries_equal cert expiry) eqn:Heq.
  - destruct (run_equal env ips expiry cert HR Heq) as (cfg' & _ & ->).
    rewrite (run_equal_requests env ips expiry cert HR Heq).
    cbn [fst snd after_loop]. split; [done|].
    rewrite !shared_app, !http_requests_app, Hpro, !requests_of_passed_over.
    rewrite shared_found, shared_lifted, !http_requests_app.
    by rewrite (in_stage_no_requests _ _ Sp).
  - destruct (run_differ env ips expiry cert HR Heq) as (cfg' & _ & ->).
    rewrite (run_differ_requests env ips expiry cert HR Heq).
    unfold reloadFluentdConfig.
    destruct (ending (reloadFluentdConfig_range env [] 0 ips)) as [[err|]|v];
      cbn [fst snd after_loop after_reload]; (split; [done|]);
      rewrite !shared_app, !http_requests_app, Hpro, ?requests_of_passed_over;
      rewrite shared_found, shared_lifted, !http_requests_app;
      rewrite (in_stage_no_requests _ _ Sp) by done; cbn; by rewrite ?app_nil_r.
Qed.

Lemma revisions_agree_on_single_certificate_witness :
  snd (Legacy.main Scenario.fluentd_namespace (λ _, Scenario.fluentd_namespace) (λ s, s))
    = ending (main Scenario.fluentd_namespace) ∧
  http_requests
    (Legacy.shared
       (fst (Legacy.main Scenario.fluentd_namespace (λ _, Scenario.fluentd_namespace)
               (λ s, s))))
    = http_requests (trace (main Scenario.fluentd_namespace)).
Proof.
  apply (revisions_agree_on_single_certificate
           Scenario.fluentd_namespace (λ _, Scenario.fluentd_namespace) (λ s, s)
           (mkConfig "logging.donchev.is" "fluentd-tls" "fluentd")
           [Scenario.cert "other-tls" (Some Scenario.june)] []
           (Scenario.the_certificate (Some Scenario.march))
           (conj eq_refl eq_refl) eq_refl eq_refl eq_refl).
  - intros c Hc. rewrite app_nil_r in Hc.
    apply elem_of_cons in Hc as [->|Hc]; [reflexivity|]. by apply elem_of_nil in Hc.
  - reflexivity.
  - intros c Hc.
    apply elem_of_cons in Hc as [->|Hc]; [reflexivity|]. by apply elem_of_nil in Hc.
  - reflexivity.
Defined.

(** X14. For ASCII names the test of [getCRD] is equality of the
    lower-cased certificate name and the lower-cased target, whatever the
    Unicode case tables say: a name with other letters, a longer or a
    shorter name never matches. *)
Theorem name_matches_ascii (env : Env) (target : string) (cert : Certificate) :
  all_ascii (Name cert) ->
  all_ascii target ->
  (name_matches env target cert = true <-> lower (Name cert) = lower target) ∧
  (∀ env', name_matches env' target cert = name_matches env target cert).
Proof.
  intros Hname Htarget. unfold name_matches. split.
  - by apply EqualFold_ascii.
  - intros env'. apply eq_true_iff_eq. by rewrite !EqualFold_ascii.
Qed.

Lemma name_matches_ascii_witness :
  name_matches Scenario.renewed "fluentd-tls" (Scenario.cert "Fluentd-TLS" None) = true.
Proof.
  apply (proj1 (name_matches_ascii Scenario.renewed "fluentd-tls"
                  (Scenario.cert "Fluentd-TLS" None)
                  ltac:(repeat constructor) ltac:(repeat constructor))).
  reflexivity.
Defined.
